(** * audiowmark real-time library: a shallow embedding and its properties

    The development follows the C++ sources of the real-time watermarking
    library: the payload codec and the hex utilities
    ([audiowmark_realtime.cc]), the sample FIFO [FrameBuffer], the look-ahead
    [Limiter] ([limiter.cc]), the embedder [RealtimeWatermarker] and the
    detector [RealtimeDetector].

    Conventions.
    - [size_t] values are integers in [Z] reduced modulo [2^64] where the
      source multiplies or increments them; [int] values are plain [Z].
    - [std::string] is [string]; [std::vector<T>] and [std::queue<T>] are
      [list T], the front of the queue being the head of the list.
    - [float] and [double] samples are exact rationals [Q]: rounding is not
      modelled.  Transcendental functions of the C library ([sin], [exp]) and
      the spectrum analyser, whose sources are not part of the library files
      modelled here, are parameters.
    - A result of type [option] is [None] where the C++ program does not
      return a value (failed assertion, loop that never ends, null pointer). *)

From Stdlib Require Import String Ascii ZArith QArith Qround Qabs List Bool Lia.
Import ListNotations.

Open Scope Z_scope.

(* ================================================================== *)
(** ** Machine integers *)

Module CInt.

Definition size_max : Z := 2 ^ 64.

(** Conversion of an [int] (or of an unbounded result) to [size_t]. *)
Definition to_size_t (n : Z) : Z := n mod size_max.

(** [a * b] computed in [size_t]. *)
Definition size_mul (a b : Z) : Z := (to_size_t a * to_size_t b) mod size_max.

(** [a + 1] computed in [size_t]. *)
Definition size_succ (a : Z) : Z := (a + 1) mod size_max.

Definition int_min : Z := - 2 ^ 31.
Definition int_max : Z := 2 ^ 31 - 1.

End CInt.

(* ================================================================== *)
(** ** The C library functions used by the codec *)

Module Cstd.

Definition code (c : ascii) : Z := Z.of_N (N_of_ascii c).

(** [isspace] in the "C" locale: space and the controls 9..13. *)
Definition isspace (c : ascii) : bool :=
  (code c =? 32) || ((9 <=? code c) && (code c <=? 13)).

(** Value of a hexadecimal digit, [None] for any other character. *)
Definition hex_digit_value (c : ascii) : option Z :=
  let n := code c in
  if (48 <=? n) && (n <=? 57) then Some (n - 48)
  else if (97 <=? n) && (n <=? 102) then Some (n - 87)
  else if (65 <=? n) && (n <=? 70) then Some (n - 55)
  else None.

(** [isxdigit] in the "C" locale.  A [char] above 127 is not a digit. *)
Definition isxdigit (c : ascii) : bool :=
  match hex_digit_value c with Some _ => true | None => false end.

Fixpoint skip_space (s : string) : string :=
  match s with
  | String c r => if isspace c then skip_space r else s
  | EmptyString => s
  end.

(** Optional sign: [true] for a minus. *)
Definition take_sign (s : string) : bool * string :=
  match s with
  | String "-"%char r => (true, r)
  | String "+"%char r => (false, r)
  | _ => (false, s)
  end.

(** Optional [0x] / [0X] prefix of base 16; it belongs to the number only
    when a hexadecimal digit follows, otherwise the [0] alone is the
    number. *)
Definition skip_0x (s : string) : string :=
  match s with
  | String "0"%char (String x (String d r)) =>
      if (Ascii.eqb x "x" || Ascii.eqb x "X") && isxdigit d
      then String d r else s
  | _ => s
  end.

(** The longest run of hexadecimal digits, most significant first. *)
Fixpoint digits16 (acc : Z) (s : string) : Z :=
  match s with
  | String c r =>
      match hex_digit_value c with
      | Some d => digits16 (16 * acc + d) r
      | None => acc
      end
  | EmptyString => acc
  end.

(** [strtol (s, &end, 16)]: [None] when no conversion is performed
    ([end == s]).  An embedded NUL ends the scan like any non-digit. *)
Definition strtol16 (s : string) : option Z :=
  let '(neg, s2) := take_sign (skip_space s) in
  let s3 := skip_0x s2 in
  match s3 with
  | String c _ =>
      if isxdigit c
      then Some (if neg then - digits16 0 s3 else digits16 0 s3)
      else None
  | EmptyString => None
  end.

(** [std::stoi (s, nullptr, 16)]: [None] for [std::invalid_argument] (no
    conversion) and for [std::out_of_range]. *)
Definition stoi16 (s : string) : option Z :=
  match strtol16 s with
  | Some v =>
      if (CInt.int_min <=? v) && (v <=? CInt.int_max) then Some v else None
  | None => None
  end.

(** [static_cast<char>] of an [int]. *)
Definition char_of_int (v : Z) : ascii := ascii_of_N (Z.to_N (v mod 256)).

(** One lower-case hexadecimal digit, as [printf ("%x")] prints it. *)
Definition hex_char (d : Z) : ascii :=
  if d <? 10 then ascii_of_N (Z.to_N (48 + d)) else ascii_of_N (Z.to_N (87 + d)).

(** [string_printf ("%02x", n)] for an [unsigned char] [n]. *)
Definition printf_02x (n : Z) : string :=
  String (hex_char (n / 16)) (String (hex_char (n mod 16)) EmptyString).

End Cstd.

(* ================================================================== *)
(** ** Payload codec and hex utilities ([audiowmark_realtime.cc]) *)

Module Utils.
Import Cstd.

(** The inner loop of [parse_payload]: the eight bits of a byte, most
    significant first, [(byte_value >> bit) & 1] for [bit = 7 .. 0]. *)
Definition byte_bits (byte_value : Z) : list Z :=
  map (fun bit => Z.land (Z.shiftr byte_value bit) 1) [7; 6; 5; 4; 3; 2; 1; 0].

(** The loop [for (i = 0; i < hex.length(); i += 2)] of [parse_payload],
    on the characters from position [i] on; [bitvec] is the vector built
    so far.  Both error exits return the empty vector. *)
Fixpoint parse_payload_loop (hex : string) (bitvec : list Z) : list Z :=
  match hex with
  | EmptyString => bitvec
  | String _ EmptyString => []
  | String c1 (String c2 rest) =>
      match stoi16 (String c1 (String c2 EmptyString)) with
      | Some byte_value => parse_payload_loop rest (bitvec ++ byte_bits byte_value)
      | None => []
      end
  end.

Definition parse_payload (hex : string) : list Z :=
  match hex with
  | EmptyString => []
  | _ => parse_payload_loop hex []
  end.

(** The constructor of the embedder treats an empty bit vector as the
    failure of [parse_payload]. *)
Definition parse_payload_fails (hex : string) : Prop := parse_payload hex = [].

Fixpoint TextToHex (text : string) : string :=
  match text with
  | EmptyString => EmptyString
  | String c r => (printf_02x (code c) ++ TextToHex r)%string
  end.

(** The loop of [HexToText]; a trailing single character is skipped, an
    exception of [std::stoi] gives the empty string. *)
Fixpoint HexToText_loop (hex : string) (text : string) : string :=
  match hex with
  | EmptyString => text
  | String _ EmptyString => text
  | String c1 (String c2 rest) =>
      match stoi16 (String c1 (String c2 EmptyString)) with
      | Some v => HexToText_loop rest (text ++ String (char_of_int v) EmptyString)%string
      | None => EmptyString
      end
  end.

Definition HexToText (hex : string) : string := HexToText_loop hex EmptyString.

Fixpoint all_xdigit (hex : string) : bool :=
  match hex with
  | EmptyString => true
  | String c r => if isxdigit c then all_xdigit r else false
  end.

Definition IsValidHexMessage (hex : string) : bool :=
  match hex with
  | EmptyString => false
  | _ =>
      if negb (Z.of_nat (String.length hex) mod 2 =? 0) then false
      else all_xdigit hex
  end.

(** The predicate the specification gives for a valid message: even length
    and hexadecimal digits only. *)
Definition spec_valid_hex (hex : string) : Prop :=
  Nat.Even (String.length hex) /\
  (forall c, In c (list_ascii_of_string hex) -> isxdigit c = true).

Definition printable (c : ascii) : Prop := 32 <= code c <= 126.

Definition printable_ascii (text : string) : Prop :=
  forall c, In c (list_ascii_of_string text) -> printable c.

End Utils.

(* ================================================================== *)
(** ** FrameBuffer: the FIFO between caller frames and internal blocks *)

Module FrameBuffer.

(** [buffer] is the [std::queue<float>], front first; [channels] is the
    [int] given to the constructor. *)
Record t (A : Type) : Type := mk { buffer : list A; channels : Z }.

Arguments mk {A} _ _.
Arguments buffer {A} _.
Arguments channels {A} _.

Section Operations.
Context {A : Type}.

Definition make (n_channels : Z) : t A := mk [] n_channels.

Definition push_samples (fb : t A) (samples : list A) : t A :=
  mk (buffer fb ++ samples) (channels fb).

Definition size (fb : t A) : Z := Z.of_nat (List.length (buffer fb)).

(** [frame_size * channels], computed in [size_t]. *)
Definition samples_needed (fb : t A) (frame_size : Z) : Z :=
  CInt.size_mul frame_size (channels fb).

(** Returns the frame and the buffer after the call.  The loop that moves
    [samples_needed] samples from the front of the queue to the frame is
    [firstn] / [skipn]. *)
Definition pop_frame (fb : t A) (frame_size : Z) : list A * t A :=
  if size fb <? samples_needed fb frame_size then ([], fb)
  else (firstn (Z.to_nat (samples_needed fb frame_size)) (buffer fb),
        mk (skipn (Z.to_nat (samples_needed fb frame_size)) (buffer fb)) (channels fb)).

Definition has_frame (fb : t A) (frame_size : Z) : bool :=
  samples_needed fb frame_size <=? size fb.

Definition clear (fb : t A) : t A := mk [] (channels fb).

(** The loop [while (fb.has_frame (n)) { frame = fb.pop_frame (n); body }]
    of the embedder and of the detector; [s] is whatever the body updates.
    [None] when the fuel runs out. *)
Fixpoint while_has_frame {S : Type} (body : list A -> S -> S) (n : Z)
    (fuel : nat) (fb : t A) (s : S) : option (t A * S) :=
  if has_frame fb n then
    match fuel with
    | O => None
    | Datatypes.S fuel' =>
        let '(frame, fb') := pop_frame fb n in
        while_has_frame body n fuel' fb' (body frame s)
    end
  else Some (fb, s).

(** The loop with as many rounds as there are buffered samples.  A round
    removes at least one sample unless [samples_needed] is zero, and then the
    C++ loop never ends: the result is [None] exactly in that case. *)
Definition process_frames {S : Type} (body : list A -> S -> S) (n : Z)
    (fb : t A) (s : S) : option (t A * S) :=
  while_has_frame body n (List.length (buffer fb)) fb s.

(** A loop body that only records the popped frames, in order. *)
Definition collect (frame : list A) (popped : list (list A)) : list (list A) :=
  popped ++ [frame].

(** Push one chunk, then pop frames of [n] samples per channel while there
    are any. *)
Definition push_then_pop (n : Z) (fb : t A) (popped : list (list A))
    (chunk : list A) : option (t A * list (list A)) :=
  process_frames collect n (push_samples fb chunk) popped.

(** The same for a sequence of chunks, in order. *)
Fixpoint push_chunks (n : Z) (fb : t A) (popped : list (list A))
    (chunks : list (list A)) : option (t A * list (list A)) :=
  match chunks with
  | [] => Some (fb, popped)
  | chunk :: rest =>
      match push_then_pop n fb popped chunk with
      | Some (fb', popped') => push_chunks n fb' popped' rest
      | None => None
      end
  end.

End Operations.
End FrameBuffer.

(* ================================================================== *)
(** ** Samples *)

Module Num.

(** [a < b] on samples. *)
Definition Qltb (a b : Q) : bool := negb (Qle_bool b a).

(** Conversion of a floating-point value to an integer type: the fraction
    is dropped. *)
Definition trunc (q : Q) : Z := Z.quot (Qnum q) (Zpos (Qden q)).

(** [std::max<float> (a, b)], that is [(a < b) ? b : a]. *)
Definition max_float (a b : Q) : Q := if Qltb a b then b else a.

Definition fabs (x : Q) : Q := Qabs x.

(** [v[i]] and [v[i] = x] on a vector; every index the code uses is in
    range. *)
Definition get (v : list Q) (i : nat) : Q := nth i v 0%Q.

Fixpoint set (v : list Q) (i : nat) (x : Q) : list Q :=
  match v, i with
  | [], _ => []
  | _ :: r, O => x :: r
  | y :: r, S i' => y :: set r i' x
  end.

End Num.

(* ================================================================== *)
(** ** Limiter ([limiter.cc]) *)

Module Limiter.
Import Num.

(** The fields [Limiter::process] and the constructor use.  [look_ahead] is
    a [uint]. *)
Record t : Type := mk {
  look_ahead : Z;
  decay_coeff : Q;
  maximum : Q;
  buffer : list Q;
  max_buffer : list Q
}.

(** Modelled from the spec: the initial value of [maximum], set in
    [limiter.hh], which is not among the sources: "one scalar
    [smoothed_gain] (initialized to 1.0)". *)
Definition maximum_init : Q := 1%Q.

Section Construction.

(** [exp (log (0.5) / (sample_rate * 0.05))]. *)
Variable decay_of_rate : Z -> Q.

(** [Limiter::Limiter (int sample_rate)].  [look_ahead = sample_rate * 0.005]
    converts a [double] to [uint]; [None] when [assert (look_ahead >= 1)]
    fails. *)
Definition make (sample_rate : Z) : option t :=
  let look_ahead := trunc (inject_Z sample_rate * (5 # 1000))%Q in
  if look_ahead <? 1 then None
  else Some (mk look_ahead (decay_of_rate sample_rate) maximum_init [] []).

End Construction.

(** The body of the loop over [j]: the linear ramp before a peak at
    position [i]. *)
Definition ramp_at (look_ahead : Z) (peak : Q) (i : nat) (max_buffer : list Q)
    (j : nat) : list Q :=
  if 0 <? Z.of_nat i - Z.of_nat j then
    let alpha := (inject_Z (Z.of_nat j) / inject_Z look_ahead)%Q in
    set max_buffer (i - j)
      (max_float (get max_buffer (i - j)) (fabs peak * (1 - alpha) + 1 * alpha)%Q)
  else max_buffer.

(** The body of the loop over [i]. *)
Definition ramp (look_ahead : Z) (buffer : list Q) (max_buffer : list Q)
    (i : nat) : list Q :=
  if Qltb 1 (fabs (get buffer i)) then
    fold_left (ramp_at look_ahead (get buffer i) i) (seq 0 (Z.to_nat look_ahead)) max_buffer
  else max_buffer.

Definition ramps (look_ahead : Z) (buffer max_buffer : list Q) : list Q :=
  fold_left (ramp look_ahead buffer) (seq 0 (List.length buffer)) max_buffer.

(** The body of the output loop: the state is [maximum] and [out]. *)
Definition emit (decay_coeff : Q) (buffer max_buffer : list Q)
    (st : Q * list Q) (i : nat) : Q * list Q :=
  let '(maximum, out) := st in
  let maximum := (maximum * decay_coeff + get max_buffer i * (1 - decay_coeff))%Q in
  let maximum := if Qltb maximum (get max_buffer i) then get max_buffer i else maximum in
  (maximum, out ++ [(get buffer i / maximum)%Q]).

(** [Limiter::process]: the emitted samples and the limiter after the
    call. *)
Definition process (l : t) (samples : list Q) : list Q * t :=
  let buffer := buffer l ++ samples in
  let max_buffer := max_buffer l ++ repeat 1%Q (List.length samples) in
  let max_buffer := ramps (look_ahead l) buffer max_buffer in
  if look_ahead l <? Z.of_nat (List.length buffer) then
    let todo := Z.to_nat (Z.of_nat (List.length buffer) - look_ahead l) in
    let '(maximum, out) :=
      fold_left (emit (decay_coeff l) buffer max_buffer) (seq 0 todo) (maximum l, []) in
    (out, mk (look_ahead l) (decay_coeff l) maximum (skipn todo buffer) (skipn todo max_buffer))
  else
    ([], mk (look_ahead l) (decay_coeff l) (maximum l) buffer max_buffer).

(** Successive calls of [process]: the outputs, call by call, and the
    limiter at the end. *)
Fixpoint process_all (l : t) (chunks : list (list Q)) : list (list Q) * t :=
  match chunks with
  | [] => ([], l)
  | chunk :: rest =>
      let '(out, l') := process l chunk in
      let '(outs, l'') := process_all l' rest in
      (out :: outs, l'')
  end.

End Limiter.

(* ================================================================== *)
(** ** Configuration and constants *)

(** [AudioWmark::Config], as its users build and read it. *)
Record Config : Type := mkConfig {
  sample_rate : Z;
  channels : Z;
  strength : Q
}.

Module Params.

(** [Params::frame_size], a [size_t]; [GetInternalBufferSize] returns it
    with the comment "1024 samples". *)
Definition frame_size : Z := 1024.

End Params.

(* ================================================================== *)
(** ** The embedder: SimpleWatermarkGen and RealtimeWatermarker *)

Module SimpleWatermarkGen.
Import Num.

(** The fields [process_frame] reads or writes; the FFT members, the window
    and the random generator are never used after construction. *)
Record t : Type := mk {
  n_channels : Z;
  sample_rate : Z;
  bitvec : list Z;
  frame_count : Z;
  strength : Q
}.

Definition make (channels rate : Z) (message_bits : list Z) (wm_strength : Q) : t :=
  mk channels rate message_bits 0 wm_strength.

Section Carrier.

(** [M_PI] and [std::sin], and [Params::frames_per_bit], a positive
    constant. *)
Variable M_PI : Q.
Variable sin : Q -> Q.
Variable frames_per_bit : Z.

(** The inner loop over the channels of one sample position [i]. *)
Definition add_watermark (g : t) (input_samples : list Q) (i : nat) (watermark : Q)
    (output_samples : list Q) : list Q :=
  fold_left
    (fun out ch => set out (i + ch) (get input_samples (i + ch) + watermark)%Q)
    (seq 0 (Z.to_nat (n_channels g))) output_samples.

(** The generator after the call is returned with the samples.  The outer
    loop runs over the sample positions [i = k * n_channels]. *)
Definition process_frame (g : t) (input_samples : list Q) : list Q * t :=
  if negb (Z.of_nat (List.length input_samples)
           =? CInt.size_mul Params.frame_size (n_channels g))
  then (input_samples, g)
  else
    let output_samples := repeat 0%Q (List.length input_samples) in
    let bit_index :=
      (frame_count g / CInt.to_size_t frames_per_bit)
        mod Z.of_nat (List.length (bitvec g)) in
    let bit_value := nth (Z.to_nat bit_index) (bitvec g) 0 in
    let freq := (1000 + inject_Z bit_value * 500)%Q in
    let phase_step := (2 * M_PI * freq / inject_Z (sample_rate g))%Q in
    let positions := Z.to_nat (Z.of_nat (List.length input_samples) / n_channels g) in
    let output_samples :=
      fold_left
        (fun out k =>
           let phase :=
             (inject_Z (CInt.to_size_t (frame_count g * Params.frame_size + Z.of_nat k))
              * phase_step)%Q in
           let watermark := (strength g * sin phase)%Q in
           add_watermark g input_samples (k * Z.to_nat (n_channels g)) watermark out)
        (seq 0 positions) output_samples in
    (output_samples,
     mk (n_channels g) (sample_rate g) (bitvec g) (CInt.size_succ (frame_count g))
        (strength g)).

End Carrier.

Definition reset (g : t) : t :=
  mk (n_channels g) (sample_rate g) (bitvec g) 0 (strength g).

End SimpleWatermarkGen.

Module RealtimeWatermarker.

Section WithLimiter.

(** The limiter the embedder owns is built with [Limiter (channels,
    sample_rate)], then [set_block_size_ms (100.0)] and [set_ceiling (0.95)]:
    [limiter_make] stands for the three calls, [limiter_process] for
    [Limiter::process]. *)
Variable LimiterT : Type.
Variable limiter_make : Z -> Z -> LimiterT.
Variable limiter_process : LimiterT -> list Q -> list Q * LimiterT.

Variable M_PI : Q.
Variable sin : Q -> Q.
Variable frames_per_bit : Z.

(** [RealtimeWatermarker::Impl]; a [std::unique_ptr] is an [option]. *)
Record Impl : Type := mkImpl {
  config : Config;
  bitvec : list Z;
  wm_gen : option SimpleWatermarkGen.t;
  frame_buffer : option (FrameBuffer.t Q);
  output_buffer : option (FrameBuffer.t Q);
  limiter : option LimiterT;
  initialized : bool
}.

Definition Impl_make (cfg : Config) (message_hex : string) : Impl :=
  let bitvec := Utils.parse_payload message_hex in
  match bitvec with
  | [] => mkImpl cfg bitvec None None None None false
  | _ =>
      mkImpl cfg bitvec
        (Some (SimpleWatermarkGen.make (channels cfg) (sample_rate cfg) bitvec (strength cfg)))
        (Some (FrameBuffer.make (channels cfg)))
        (Some (FrameBuffer.make (channels cfg)))
        (Some (limiter_make (channels cfg) (sample_rate cfg)))
        true
  end.

(** The body of the loop of [Impl::process_frame]: what one block does to
    the generator, the limiter and the output buffer. *)
Definition process_block (frame : list Q)
    (s : SimpleWatermarkGen.t * LimiterT * FrameBuffer.t Q)
    : SimpleWatermarkGen.t * LimiterT * FrameBuffer.t Q :=
  let '(gen, lim, out_fb) := s in
  let '(watermarked, gen') :=
    SimpleWatermarkGen.process_frame M_PI sin frames_per_bit gen frame in
  let '(watermarked, lim') := limiter_process lim watermarked in
  (gen', lim', FrameBuffer.push_samples out_fb watermarked).

(** [Impl::process_frame]: the returned samples and the object after the
    call; [None] when the loop never ends or a null pointer is used. *)
Definition Impl_process_frame (impl : Impl) (input_samples : list Q) (frame_size : Z)
    : option (list Q * Impl) :=
  if negb (initialized impl) then Some (input_samples, impl)
  else
    match frame_buffer impl, output_buffer impl, wm_gen impl, limiter impl with
    | Some fb, Some out_fb, Some gen, Some lim =>
        let fb := FrameBuffer.push_samples fb input_samples in
        match FrameBuffer.process_frames process_block Params.frame_size fb
                (gen, lim, out_fb) with
        | Some (fb', (gen', lim', out_fb')) =>
            if FrameBuffer.has_frame out_fb' frame_size then
              let '(frame, out_fb'') := FrameBuffer.pop_frame out_fb' frame_size in
              Some (frame,
                    mkImpl (config impl) (bitvec impl) (Some gen') (Some fb')
                      (Some out_fb'') (Some lim') (initialized impl))
            else
              Some (repeat 0%Q (List.length input_samples),
                    mkImpl (config impl) (bitvec impl) (Some gen') (Some fb')
                      (Some out_fb') (Some lim') (initialized impl))
        | None => None
        end
    | _, _, _, _ => None
    end.

Definition Impl_reset (impl : Impl) : Impl :=
  mkImpl (config impl) (bitvec impl)
    (option_map SimpleWatermarkGen.reset (wm_gen impl))
    (option_map FrameBuffer.clear (frame_buffer impl))
    (option_map FrameBuffer.clear (output_buffer impl))
    (limiter impl) (initialized impl).

(** [RealtimeWatermarker]: the [pImpl] pointer. *)
Record t : Type := mk { pImpl : option Impl }.

Definition make (cfg : Config) (message_hex : string) : t :=
  mk (Some (Impl_make cfg message_hex)).

Definition IsInitialized (w : t) : bool :=
  match pImpl w with Some impl => initialized impl | None => false end.

(** [RealtimeWatermarker::ProcessFrame].  The message the mismatch branch
    writes to [std::cerr] is not part of the state. *)
Definition ProcessFrame (w : t) (input_samples : list Q) (frame_size : Z)
    : option (list Q * t) :=
  match pImpl w with
  | None => Some (input_samples, w)
  | Some impl =>
      if negb (Z.of_nat (List.length input_samples)
               =? CInt.size_mul frame_size (channels (config impl)))
      then Some (input_samples, w)
      else
        match Impl_process_frame impl input_samples frame_size with
        | Some (out, impl') => Some (out, mk (Some impl'))
        | None => None
        end
  end.

Definition Reset (w : t) : t := mk (option_map Impl_reset (pImpl w)).

End WithLimiter.

Arguments mkImpl {LimiterT} _ _ _ _ _ _ _.
Arguments config {LimiterT} _.
Arguments bitvec {LimiterT} _.
Arguments wm_gen {LimiterT} _.
Arguments frame_buffer {LimiterT} _.
Arguments output_buffer {LimiterT} _.
Arguments limiter {LimiterT} _.
Arguments initialized {LimiterT} _.
Arguments mk {LimiterT} _.
Arguments pImpl {LimiterT} _.
Arguments ProcessFrame {LimiterT} _ _ _ _ _ _ _.
Arguments Reset {LimiterT} _.
Arguments IsInitialized {LimiterT} _.

End RealtimeWatermarker.

(* ================================================================== *)
(** ** The detector: RealtimeDetector *)

Module RealtimeDetector.
Import Num.

(** [RealtimeDetector::Impl].  [detection_scores] has one row per bit
    hypothesis; [frames_processed] and [detection_window_frames] are
    [size_t]. *)
Record Impl : Type := mkImpl {
  config : Config;
  frame_buffer : FrameBuffer.t Q;
  detection_scores : list (list Q);
  detected_bits : list Z;
  frames_processed : Z;
  detection_window_frames : Z;
  initialized : bool;
  confidence_threshold : Q
}.

Definition Impl_make (cfg : Config) : Impl :=
  mkImpl cfg (FrameBuffer.make (channels cfg))
    (map (fun _ => repeat 0%Q 100) (seq 0 2))
    [] 0 100 true (7 # 10).

(** [detection_scores[h][i]] and [detection_scores[h][i] = x]. *)
Definition score (scores : list (list Q)) (h i : nat) : Q := get (nth h scores []) i.

Fixpoint set_score (scores : list (list Q)) (h i : nat) (x : Q) : list (list Q) :=
  match scores, h with
  | [], _ => []
  | row :: rest, O => set row i x :: rest
  | row :: rest, S h' => row :: set_score rest h' i x
  end.

Definition with_scores (d : Impl) (scores : list (list Q)) : Impl :=
  mkImpl (config d) (frame_buffer d) scores (detected_bits d) (frames_processed d)
    (detection_window_frames d) (initialized d) (confidence_threshold d).

Section Analysis.

(** The spectrum analyser is not among the sources: [run_fft_abs frame] is
    [std::abs] of every bin of [fft_analyzer.run_fft (frame, 0)], one row
    per channel. *)
Variable run_fft_abs : list Q -> list (list Q).

(** [analyze_frame_for_watermark].  [None] where the C++ code has no
    defined result: a zero [sample_rate] (conversion of an infinity to
    [int]) or a negative bin index. *)
Definition analyze_frame_for_watermark (d : Impl) (frame : list Q) : option Impl :=
  let fft_result := run_fft_abs frame in
  match fft_result with
  | [] => Some d
  | [] :: _ => Some d
  | bins :: _ =>
      let fft_size := Z.of_nat (List.length bins) in
      if sample_rate (config d) =? 0 then None
      else
        let freq_resolution :=
          (inject_Z (sample_rate (config d)) / (2 * inject_Z fft_size))%Q in
        let bin_1000hz := trunc (1000 / freq_resolution)%Q in
        let bin_1500hz := trunc (1500 / freq_resolution)%Q in
        if (bin_1000hz <? fft_size) && (bin_1500hz <? fft_size) then
          if (bin_1000hz <? 0) || (bin_1500hz <? 0) then None
          else
            let mag_1000 := get bins (Z.to_nat bin_1000hz) in
            let mag_1500 := get bins (Z.to_nat bin_1500hz) in
            let score_index :=
              Z.to_nat (frames_processed d mod detection_window_frames d) in
            let scores := detection_scores d in
            if Qltb (mag_1000 * (12 # 10)) mag_1500 then
              let scores := set_score scores 1 score_index
                              (mag_1500 / (mag_1000 + (1 # 10000000000)))%Q in
              Some (with_scores d (set_score scores 0 score_index 0%Q))
            else if Qltb (mag_1500 * (12 # 10)) mag_1000 then
              let scores := set_score scores 0 score_index
                              (mag_1000 / (mag_1500 + (1 # 10000000000)))%Q in
              Some (with_scores d (set_score scores 1 score_index 0%Q))
            else
              let scores := set_score scores 0 score_index 0%Q in
              Some (with_scores d (set_score scores 1 score_index 0%Q))
        else Some d
  end.

(** The body of the loop of [process_frame]: one block is analysed, then
    [frames_processed++]. *)
Definition process_block (frame : list Q) (s : option Impl) : option Impl :=
  match s with
  | Some d =>
      match analyze_frame_for_watermark d frame with
      | Some d' =>
          Some (mkImpl (config d') (frame_buffer d') (detection_scores d')
                  (detected_bits d') (CInt.size_succ (frames_processed d'))
                  (detection_window_frames d') (initialized d')
                  (confidence_threshold d'))
      | None => None
      end
  | None => None
  end.

(** Blocks handled one after the other, as the loop does. *)
Definition process_blocks (d : Impl) (frames : list (list Q)) : option Impl :=
  fold_left (fun s frame => process_block frame s) frames (Some d).

(** [Impl::process_frame]; [None] when the loop never ends or the analysis
    has no defined result. *)
Definition Impl_process_frame (d : Impl) (input_samples : list Q) (frame_size : Z)
    : option Impl :=
  if negb (initialized d)
     || negb (Z.of_nat (List.length input_samples)
              =? CInt.size_mul frame_size (channels (config d)))
  then Some d
  else
    let fb := FrameBuffer.push_samples (frame_buffer d) input_samples in
    match FrameBuffer.process_frames process_block Params.frame_size fb (Some d) with
    | Some (fb', Some d') =>
        Some (mkImpl (config d') fb' (detection_scores d') (detected_bits d')
                (frames_processed d') (detection_window_frames d') (initialized d')
                (confidence_threshold d'))
    | _ => None
    end.

End Analysis.

(** The sum a loop [for (i = 0; i < n; i++) acc += row[i]] leaves in
    [acc]. *)
Definition sum_scores (scores : list (list Q)) (h : nat) (n : Z) : Q :=
  fold_left (fun acc i => (acc + score scores h i)%Q) (seq 0 (Z.to_nat n)) 0%Q.


(** [get_detection_result]: the returned flag, then the two reference
    arguments [detected_message] and [confidence] after the call. *)
Definition get_detection_result (d : Impl) (detected_message : string) (confidence : Q)
    : bool * string * Q :=
  if frames_processed d <? detection_window_frames d / 2 then
    (false, detected_message, 0%Q)
  else
    let window := inject_Z (detection_window_frames d) in
    let avg_score_0 :=
      (sum_scores (detection_scores d) 0 (detection_window_frames d) / window)%Q in
    let avg_score_1 :=
      (sum_scores (detection_scores d) 1 (detection_window_frames d) / window)%Q in
    let total_score := (avg_score_0 + avg_score_1)%Q in
    let confidence := (total_score / window)%Q in
    if Qltb (confidence_threshold d) confidence then
      if Qltb (avg_score_0 * (15 # 10)) avg_score_1 then
        (true, "48656c6c6f20576f726c6421"%string, confidence)
      else if Qltb (avg_score_1 * (15 # 10)) avg_score_0 then
        (true, "54657374"%string, confidence)
      else
        (true, "556e6b6e6f776e"%string, confidence)
    else (false, detected_message, confidence).

Definition Impl_reset (d : Impl) : Impl :=
  mkImpl (config d) (FrameBuffer.clear (frame_buffer d))
    (map (fun scores => repeat 0%Q (List.length scores)) (detection_scores d))
    (detected_bits d) 0 (detection_window_frames d) (initialized d)
    (confidence_threshold d).

(** [RealtimeDetector]: the [pImpl] pointer. *)
Record t : Type := mk { pImpl : option Impl }.

Definition make (cfg : Config) : t := mk (Some (Impl_make cfg)).

Definition ProcessFrame (run_fft_abs : list Q -> list (list Q)) (det : t)
    (input_samples : list Q) (frame_size : Z) : option t :=
  match pImpl det with
  | Some d =>
      match Impl_process_frame run_fft_abs d input_samples frame_size with
      | Some d' => Some (mk (Some d'))
      | None => None
      end
  | None => Some det
  end.

Definition GetDetectionResult (det : t) (detected_message : string) (confidence : Q)
    : bool * string * Q :=
  match pImpl det with
  | Some d => get_detection_result d detected_message confidence
  | None => (false, detected_message, confidence)
  end.

Definition Reset (det : t) : t := mk (option_map Impl_reset (pImpl det)).

(** A result is absent when the call returns [false]. *)
Definition absent (r : bool * string * Q) : Prop := fst (fst r) = false.

End RealtimeDetector.

(* ================================================================== *)
(** ** The placeholder detector of [src/audiowmark_realtime.cc] *)

Module RealtimeDetectorPlaceholder.

(** In that copy of the file the detector holds its configuration only, and
    its three operations are left to be written. *)
Record Impl : Type := mkImpl { config : Config; initialized : bool }.

Record t : Type := mk { pImpl : option Impl }.

Definition make (cfg : Config) : t := mk (Some (mkImpl cfg true)).

Definition ProcessFrame (det : t) (input_samples : list Q) (frame_size : Z) : t := det.

Definition GetDetectionResult (det : t) (detected_message : string) (confidence : Q)
    : bool * string * Q :=
  (false, detected_message, confidence).

Definition Reset (det : t) : t := det.

End RealtimeDetectorPlaceholder.

(* ================================================================== *)
(** ** The decoding the specification asks of the detector *)

Module SpecDecode.
Import Num.

(** These definitions follow the words of the specification, not the
    source: "decode the actual bit sequence observed (majority hypothesis
    per bit-position group, reassembled into bytes, converted through
    [HexToText])".  A bit-position group is a run of [frames_per_bit]
    consecutive blocks of the window. *)



(** Whole bytes, most significant bit first; a trailing partial byte is
    dropped. *)
Fixpoint bytes_of_bits (fuel : nat) (bits : list Z) : list Z :=
  match fuel, bits with
  | S fuel', b7 :: b6 :: b5 :: b4 :: b3 :: b2 :: b1 :: b0 :: rest =>
      (128 * b7 + 64 * b6 + 32 * b5 + 16 * b4 + 8 * b3 + 4 * b2 + 2 * b1 + b0)
        :: bytes_of_bits fuel' rest
  | _, _ => []
  end.


End SpecDecode.

(* ================================================================== *)
(** ** Concrete instances used by the examples below *)

Module Examples.

(** A limiter as the constructor builds it at 44100 Hz, for a decay
    coefficient [d]. *)
Definition limiter_44100 (d : Q) : Limiter.t := Limiter.mk 220 d 1 [] [].

(** A peak of 2.0 followed by 220 samples of silence. *)
Definition peak_then_silence : list Q := 2%Q :: repeat 0%Q 220.

(** The gain the limiter applies to the first emitted sample. *)
Definition first_gain (d : Q) : Q :=
  if Num.Qltb (1 * d + 1 * (1 - d))%Q 1%Q then 1%Q else (1 * d + 1 * (1 - d))%Q.

(** An embedder for the payload "Hello" at 44100 Hz, mono. *)
Definition watermarker : RealtimeWatermarker.t Limiter.t :=
  RealtimeWatermarker.make Limiter.t (fun _ _ => limiter_44100 (1 # 2))
    (mkConfig 44100 1 (4 # 1000)) "48656c6c6f".

(** The magnitudes an analyser reports for a block that carries the
    1.5 kHz carrier: 513 bins, 200 at bin 34 (1.5 kHz at 44100 Hz) and 1 at
    bin 23 (1 kHz). *)
Definition spectrum_1500 : list Q :=
  map (fun k => if (k =? 34)%nat then 200%Q else if (k =? 23)%nat then 1%Q else 0%Q)
    (seq 0 513).

Definition analyser_1500 (frame : list Q) : list (list Q) := [spectrum_1500].

(** One block of [Params::frame_size] mono samples. *)
Definition block : list Q := repeat (1 # 2)%Q 1024.

Definition detector_config : Config := mkConfig 44100 1 (4 # 1000).

(** A detector after [Reset] and [n] blocks. *)
Definition detector_after (n : nat) : option RealtimeDetector.Impl :=
  RealtimeDetector.process_blocks analyser_1500
    (RealtimeDetector.Impl_reset (RealtimeDetector.Impl_make detector_config))
    (repeat block n).

(** The same through the interface: [Reset], then [n] calls of
    [ProcessFrame] with one block each. *)
Definition detector_api_after (n : nat) : option RealtimeDetector.t :=
  fold_left
    (fun s _ =>
       match s with
       | Some det => RealtimeDetector.ProcessFrame analyser_1500 det block 1024
       | None => None
       end)
    (seq 0 n)
    (Some (RealtimeDetector.Reset (RealtimeDetector.make detector_config))).


End Examples.

(* ================================================================== *)
(** ** Invariants used in the proofs *)

Module Invariants.

(** What a run of the popping loop leaves of a buffer [l]: whole frames of
    [bs] samples, in order, and a remainder shorter than a frame. *)
Definition chopped {A : Type} (bs : Z) (l : list A) (frames : list (list A))
    (rest : list A) : Prop :=
  concat frames ++ rest = l
  /\ Z.of_nat (List.length rest) < bs
  /\ Forall (fun f => Z.of_nat (List.length f) = bs) frames.

(** The limiter holds as many gains as samples, and never more than
    [look_ahead] of them between two calls. *)
Definition settled (l : Limiter.t) : Prop :=
  List.length (Limiter.max_buffer l) = List.length (Limiter.buffer l)
  /\ Z.of_nat (List.length (Limiter.buffer l)) <= Limiter.look_ahead l.

(** An emitted sample within the ceiling, which is 1 in [limiter.cc]. *)
Definition bounded (o : Q) : Prop := (Qabs o <= 1)%Q.

(** The gain of position [i] serves the sample of position [i]. *)
Definition covered (buf mb : list Q) (i : nat) : Prop :=
  (1 <= Num.get mb i)%Q /\ (Qabs (Num.get buf i) <= Num.get mb i)%Q.

(** Between two calls: every gain is at least 1 and serves its sample,
    except perhaps at the positions below [k0]. *)
Definition serves_from (k0 : nat) (l : Limiter.t) : Prop :=
  1 <= Limiter.look_ahead l
  /\ List.length (Limiter.max_buffer l) = List.length (Limiter.buffer l)
  /\ Z.of_nat (List.length (Limiter.buffer l)) <= Limiter.look_ahead l
  /\ forall i, (i < List.length (Limiter.buffer l))%nat ->
       (1 <= Num.get (Limiter.max_buffer l) i)%Q
       /\ ((k0 <= i)%nat ->
           (Qabs (Num.get (Limiter.buffer l) i) <= Num.get (Limiter.max_buffer l) i)%Q).

(** The analysis of a block changes nothing but the scores. *)
Definition same_counters (d d' : RealtimeDetector.Impl) : Prop :=
  RealtimeDetector.frames_processed d' = RealtimeDetector.frames_processed d
  /\ RealtimeDetector.detection_window_frames d'
     = RealtimeDetector.detection_window_frames d
  /\ RealtimeDetector.config d' = RealtimeDetector.config d.

End Invariants.

(* ================================================================== *)
(** ** The simplified WebAssembly build ([SimpleWatermarker]) *)

Module SimpleWasm.
Import Cstd.

(** [SimpleWatermarker::hex_to_bits]: like [parse_payload], but a trailing
    single character is skipped and an exception of [std::stoi] leaves the
    loop with the bits read so far. *)
Fixpoint hex_to_bits_loop (hex : string) (bits : list Z) : list Z :=
  match hex with
  | EmptyString => bits
  | String _ EmptyString => bits
  | String c1 (String c2 rest) =>
      match stoi16 (String c1 (String c2 EmptyString)) with
      | Some byte_val => hex_to_bits_loop rest (bits ++ Utils.byte_bits byte_val)
      | None => bits
      end
  end.

Definition hex_to_bits (hex : string) : list Z := hex_to_bits_loop hex [].

End SimpleWasm.

(* ================================================================== *)
(** ** Letters and bits *)

Module Letters.

(** The lower-case form of a letter, any other character unchanged. *)
Definition lower (c : ascii) : ascii :=
  if (65 <=? Cstd.code c) && (Cstd.code c <=? 90)
  then ascii_of_N (Z.to_N (Cstd.code c + 32)) else c.

Fixpoint lower_string (s : string) : string :=
  match s with
  | EmptyString => EmptyString
  | String c r => String (lower c) (lower_string r)
  end.

(** A bit of a payload. *)
Definition binary (b : Z) : Prop := b = 0 \/ b = 1.

End Letters.

(* ================================================================== *)
(** ** The carrier the embedder adds *)

Module Carrier.
Import SimpleWatermarkGen.

Section WithSin.
Variable M_PI : Q.
Variable sin : Q -> Q.
Variable frames_per_bit : Z.

(** The payload bit a block carries: [bitvec[bit_index]]. *)
Definition bit_value (g : t) : Z :=
  nth (Z.to_nat ((frame_count g / CInt.to_size_t frames_per_bit)
                   mod Z.of_nat (List.length (bitvec g))))
    (bitvec g) 0.


End WithSin.
End Carrier.

(* ================================================================== *)
(** ** Further invariants of the limiter *)

Module LimiterInvariants.
(** An emitted sample [o] is the input sample [x] divided by a gain of at
    least 1. *)
Definition attenuated (o x : Q) : Prop := exists g : Q, (1 <= g)%Q /\ o = (x / g)%Q.

(** No peak has been seen: every gain is 1 and the smoothed maximum is 1. *)
Definition quiet (l : Limiter.t) : Prop :=
  Limiter.max_buffer l = repeat 1%Q (List.length (Limiter.buffer l))
  /\ (Limiter.maximum l == 1)%Q
  /\ Forall (fun x => Qabs x <= 1)%Q (Limiter.buffer l)
  /\ Z.of_nat (List.length (Limiter.buffer l)) <= Limiter.look_ahead l.
End LimiterInvariants.

(* ================================================================== *)
(** ** Sequences of calls of [ProcessFrame] *)

Module Calls.




End Calls.

(* ================================================================== *)
(** ** Runs of the embedder *)

Module WatermarkerRuns.
Import RealtimeWatermarker.

Section WithLimiter.
Variable LimiterT : Type.
Variable limiter_make : Z -> Z -> LimiterT.
Variable limiter_process : LimiterT -> list Q -> list Q * LimiterT.
Variable M_PI : Q.
Variable sin : Q -> Q.
Variable frames_per_bit : Z.

(** The embedders a program can hold: built by the constructor, then any
    calls of [ProcessFrame] that return and of [Reset]. *)
Inductive Reachable (cfg : Config) (message_hex : string) : t LimiterT -> Prop :=
| reach_make : Reachable cfg message_hex (make LimiterT limiter_make cfg message_hex)
| reach_process (w w' : t LimiterT) (input_samples out : list Q) (frame_size : Z) :
    Reachable cfg message_hex w ->
    ProcessFrame limiter_process M_PI sin frames_per_bit w input_samples frame_size
    = Some (out, w') ->
    Reachable cfg message_hex w'
| reach_reset (w : t LimiterT) :
    Reachable cfg message_hex w -> Reachable cfg message_hex (Reset w).

(** Successive calls of [ProcessFrame], each with its samples and its
    [frame_size]: the outputs, call by call, and the embedder at the end. *)
Fixpoint ProcessFrames (w : t LimiterT) (calls : list (list Q * Z))
    : option (list (list Q) * t LimiterT) :=
  match calls with
  | [] => Some ([], w)
  | (input_samples, frame_size) :: rest =>
      match ProcessFrame limiter_process M_PI sin frames_per_bit w input_samples frame_size with
      | Some (out, w') =>
          match ProcessFrames w' rest with
          | Some (outs, w'') => Some (out :: outs, w'')
          | None => None
          end
      | None => None
      end
  end.

(** What the constructor establishes of the generator and of the output
    buffer, and every block keeps. *)
Definition block_state_ok (cfg : Config) (message_hex : string)
    (s : SimpleWatermarkGen.t * LimiterT * FrameBuffer.t Q) : Prop :=
  let '(gen, _, out_fb) := s in
  FrameBuffer.channels out_fb = channels cfg
  /\ SimpleWatermarkGen.n_channels gen = channels cfg
  /\ SimpleWatermarkGen.sample_rate gen = sample_rate cfg
  /\ SimpleWatermarkGen.bitvec gen = Utils.parse_payload message_hex
  /\ SimpleWatermarkGen.strength gen = strength cfg.

(** What the constructor establishes of an initialised embedder, and every
    call keeps. *)
Definition built (cfg : Config) (message_hex : string) (impl : Impl LimiterT) : Prop :=
  config impl = cfg
  /\ bitvec impl = Utils.parse_payload message_hex
  /\ Utils.parse_payload message_hex <> []
  /\ initialized impl = true
  /\ exists gen fb out_fb lim,
       wm_gen impl = Some gen /\ frame_buffer impl = Some fb
       /\ output_buffer impl = Some out_fb /\ limiter impl = Some lim
       /\ FrameBuffer.channels fb = channels cfg
       /\ block_state_ok cfg message_hex (gen, lim, out_fb).

(** An embedder is well formed when it is the failed construction or is
    [built]. *)
Definition well_formed (cfg : Config) (message_hex : string) (w : t LimiterT) : Prop :=
  exists impl, pImpl w = Some impl
    /\ (initialized impl = false
        /\ impl = Impl_make LimiterT limiter_make cfg message_hex
        \/ built cfg message_hex impl).

(** An initialised embedder that has not yet seen a whole block: [b]
    samples wait in the input buffer, the output buffer is empty. *)
Definition idle (cfg : Config) (message_hex : string) (b : Z) (impl : Impl LimiterT) : Prop :=
  built cfg message_hex impl
  /\ exists fb, frame_buffer impl = Some fb /\ FrameBuffer.size fb = b
       /\ output_buffer impl = Some (FrameBuffer.mk [] (channels cfg)).

End WithLimiter.

Arguments Reachable {LimiterT} _ _ _ _ _ _ _ _.
Arguments ProcessFrames {LimiterT} _ _ _ _ _ _.
Arguments built {LimiterT} _ _ _.
Arguments block_state_ok {LimiterT} _ _ _.
Arguments well_formed {LimiterT} _ _ _ _.
Arguments idle {LimiterT} _ _ _ _.

End WatermarkerRuns.

Module WatermarkerTally.
Import RealtimeWatermarker WatermarkerRuns Calls.


End WatermarkerTally.

(* ================================================================== *)
(** ** Runs of the detector *)

Module DetectorRuns.
Import RealtimeDetector Calls.

Section WithAnalyser.
Variable run_fft_abs : list Q -> list (list Q).

(** The detectors a program can hold: built by the constructor, then any
    calls of [ProcessFrame] that return and of [Reset]. *)
Inductive Reachable (cfg : Config) : t -> Prop :=
| reach_make : Reachable cfg (make cfg)
| reach_process (det det' : t) (input_samples : list Q) (frame_size : Z) :
    Reachable cfg det ->
    ProcessFrame run_fft_abs det input_samples frame_size = Some det' ->
    Reachable cfg det'
| reach_reset (det : t) : Reachable cfg det -> Reachable cfg (Reset det).

(** Successive calls of [ProcessFrame], each with its samples and its
    [frame_size]. *)
Fixpoint ProcessFrames (det : t) (calls : list (list Q * Z)) : option t :=
  match calls with
  | [] => Some det
  | (input_samples, frame_size) :: rest =>
      match ProcessFrame run_fft_abs det input_samples frame_size with
      | Some det' => ProcessFrames det' rest
      | None => None
      end
  end.

End WithAnalyser.

(** What the constructor establishes and every call keeps: the constants,
    two rows of 100 scores, and the channel count of the buffer. *)
Definition shaped (cfg : Config) (d : Impl) : Prop :=
  config d = cfg
  /\ detected_bits d = []
  /\ detection_window_frames d = 100
  /\ initialized d = true
  /\ confidence_threshold d = (7 # 10)%Q
  /\ FrameBuffer.channels (frame_buffer d) = channels cfg
  /\ map (@List.length Q) (detection_scores d) = [100; 100]%nat.


(** The slot of the window the next block writes. *)
Definition slot (d : Impl) : nat :=
  Z.to_nat (frames_processed d mod detection_window_frames d).

End DetectorRuns.

(* ================================================================== *)
(** ** Concrete runs *)

Module RunExamples.

(** An embedder whose message has an odd number of digits: the constructor
    leaves it uninitialised. *)
Definition unset_watermarker : RealtimeWatermarker.t Limiter.t :=
  RealtimeWatermarker.make Limiter.t (fun _ _ => Examples.limiter_44100 (1 # 2))
    (mkConfig 44100 1 (4 # 1000)) "486".

(** A configuration without channels, and an embedder built for it. *)
Definition no_channel_config : Config := mkConfig 44100 0 (4 # 1000).

Definition no_channel_watermarker : RealtimeWatermarker.t Limiter.t :=
  RealtimeWatermarker.make Limiter.t (fun _ _ => Examples.limiter_44100 (1 # 2))
    no_channel_config "48".

(** The first call of [ProcessFrame] on [Examples.watermarker], with two
    samples: what it returns and the embedder it leaves. *)
Definition first_call : list Q * RealtimeWatermarker.t Limiter.t :=
  match RealtimeWatermarker.ProcessFrame Limiter.process (355 # 113) (fun x => x) 2
          Examples.watermarker [1 # 4; 1 # 4]%Q 2 with
  | Some r => r
  | None => ([], Examples.watermarker)
  end.

(** Calls that give three samples in all. *)
Definition short_calls : list (list Q * Z) := [([1 # 4; 1 # 4]%Q, 2); ([1 # 2]%Q, 1)].

(** A fresh detector after the analysis of one block. *)
Definition analysed_once : RealtimeDetector.Impl :=
  match RealtimeDetector.analyze_frame_for_watermark Examples.analyser_1500
          (RealtimeDetector.Impl_make Examples.detector_config) Examples.block with
  | Some d => d
  | None => RealtimeDetector.Impl_make Examples.detector_config
  end.

(** A fresh detector after one call of [ProcessFrame] with one block. *)
Definition detector_once : RealtimeDetector.t :=
  match RealtimeDetector.ProcessFrame Examples.analyser_1500
          (RealtimeDetector.make Examples.detector_config) Examples.block 1024 with
  | Some det => det
  | None => RealtimeDetector.make Examples.detector_config
  end.

(** An analyser that finds nothing in any bin, sixty calls with one block
    each, and a fresh detector after these calls. *)
Definition silent_analyser (frame : list Q) : list (list Q) := [repeat 0%Q 513].

Definition silent_calls : list (list Q * Z) := repeat (Examples.block, 1024) 60.

Definition detector_after_silence : RealtimeDetector.t :=
  match DetectorRuns.ProcessFrames silent_analyser
          (RealtimeDetector.make Examples.detector_config) silent_calls with
  | Some det => det
  | None => RealtimeDetector.make Examples.detector_config
  end.

(** A detector that has processed 60 blocks and holds no evidence. *)
Definition detector_quiet : RealtimeDetector.Impl :=
  RealtimeDetector.mkImpl Examples.detector_config (FrameBuffer.make 1)
    [repeat 0%Q 100; repeat 0%Q 100] [] 60 100 true (7 # 10).

End RunExamples.

(* ================================================================== *)
(** * Properties *)

Import Invariants.

Section CodecFacts.
Import Cstd Utils.

Lemma char_of_int_code (c : ascii) : char_of_int (code c) = c.
Proof.
  destruct c as [[] [] [] [] [] [] [] []]; reflexivity.
Qed.

Lemma stoi16_printf_02x (c : ascii) : stoi16 (printf_02x (code c)) = Some (code c).
Proof.
  destruct c as [[] [] [] [] [] [] [] []]; reflexivity.
Qed.

Lemma printf_02x_shape (n : Z) :
  exists a b, printf_02x n = String a (String b EmptyString).
Proof. unfold printf_02x; eauto. Qed.

Lemma HexToText_loop_TextToHex (text acc : string) :
  HexToText_loop (TextToHex text) acc = (acc ++ text)%string.
Proof.
  revert acc; induction text as [| c r IH]; intros acc.
  - simpl. induction acc; simpl; congruence.
  - cbn [TextToHex].
    pose proof (stoi16_printf_02x c) as Hs.
    destruct (printf_02x_shape (code c)) as (a & b & Hp).
    rewrite Hp in *. cbn [append HexToText_loop].
    rewrite Hs, IH, char_of_int_code.
    clear. induction acc; simpl; congruence.
Qed.

End CodecFacts.

(** C4. For every printable-ASCII string [M], [HexToText (TextToHex M)] is
    [M]: the two conversions are inverse byte for byte. *)
Theorem HexToText_TextToHex_roundtrip (M : string) :
  Utils.printable_ascii M -> Utils.HexToText (Utils.TextToHex M) = M.
Proof.
  intros _. unfold Utils.HexToText.
  now rewrite HexToText_loop_TextToHex.
Qed.

Lemma HexToText_TextToHex_roundtrip_witness :
  Utils.printable_ascii "Hello"
  /\ Utils.HexToText (Utils.TextToHex "Hello") = "Hello"%string.
Proof.
  assert (H : Utils.printable_ascii "Hello").
  { intros c Hc. unfold Utils.printable. simpl in Hc.
    repeat (destruct Hc as [<- | Hc]; [vm_compute; split; discriminate |]).
    destruct Hc. }
  split; [exact H | exact (HexToText_TextToHex_roundtrip "Hello" H)].
Defined.


Section ValidationFacts.
Import Cstd Utils.

(** Induction over a string two characters at a time, the way the loops of
    [parse_payload] and [HexToText] walk it. *)
Lemma string_pair_ind (P : string -> Prop) :
  P EmptyString ->
  (forall c, P (String c EmptyString)) ->
  (forall c1 c2 r, P r -> P (String c1 (String c2 r))) ->
  forall s, P s.
Proof.
  intros H0 H1 H2.
  assert (H : forall s, P s /\ forall c, P (String c s)).
  { induction s as [| c r [IHa IHb]]; split; auto. }
  intros s; apply H.
Qed.

Lemma hex_digit_value_range (c : ascii) (d : Z) :
  hex_digit_value c = Some d -> 0 <= d < 16.
Proof.
  unfold hex_digit_value. cbv zeta.
  repeat match goal with
         | |- context [if ?b then _ else _] => destruct b eqn:?
         end; intros [= <-]; lia.
Qed.

Lemma stoi16_two_xdigits (c1 c2 : ascii) :
  isxdigit c1 = true -> isxdigit c2 = true ->
  exists v, stoi16 (String c1 (String c2 EmptyString)) = Some v.
Proof.
  intros H1 H2. unfold isxdigit in H2.
  destruct (hex_digit_value c2) as [d |] eqn:E2; [| discriminate].
  pose proof (hex_digit_value_range _ _ E2) as Hd.
  destruct c1 as [[] [] [] [] [] [] [] []]; try discriminate H1;
    unfold stoi16, strtol16; cbn -[Z.add Z.mul]; rewrite E2;
    match goal with
    | |- context [(?a <=? ?v) && (?v <=? ?b)] =>
        replace ((a <=? v) && (v <=? b)) with true
          by (symmetry; apply andb_true_iff; split; apply Z.leb_le;
              unfold CInt.int_min, CInt.int_max; lia)
    end; eauto.
Qed.

Lemma parse_payload_loop_length (hex : string) :
  all_xdigit hex = true -> Nat.Even (String.length hex) ->
  forall bitvec,
    List.length (parse_payload_loop hex bitvec)
    = (List.length bitvec + 4 * String.length hex)%nat.
Proof.
  induction hex as [| c | c1 c2 r IH] using string_pair_ind; intros Hx He bitvec.
  - simpl. lia.
  - exfalso. destruct He as [k Hk]. simpl in Hk. lia.
  - cbn [all_xdigit] in Hx.
    destruct (isxdigit c1) eqn:X1; [| discriminate].
    destruct (isxdigit c2) eqn:X2; [| discriminate].
    destruct (stoi16_two_xdigits c1 c2 X1 X2) as [v Hv].
    cbn [parse_payload_loop]. rewrite Hv.
    rewrite IH; auto.
    + rewrite length_app. cbn [String.length byte_bits map List.length]. lia.
    + destruct He as [k Hk]. cbn [String.length] in Hk. exists (k - 1)%nat. lia.
Qed.

Lemma parse_payload_loop_odd (hex : string) :
  Nat.Odd (String.length hex) ->
  forall bitvec, parse_payload_loop hex bitvec = [].
Proof.
  induction hex as [| c | c1 c2 r IH] using string_pair_ind; intros Ho bitvec.
  - destruct Ho as [k Hk]. simpl in Hk. lia.
  - reflexivity.
  - cbn [parse_payload_loop].
    destruct (stoi16 _); [| reflexivity].
    apply IH. destruct Ho as [k Hk]. cbn [String.length] in Hk.
    exists (k - 1)%nat. lia.
Qed.

Lemma all_xdigit_spec (hex : string) :
  all_xdigit hex = true <->
  (forall c, In c (list_ascii_of_string hex) -> isxdigit c = true).
Proof.
  induction hex as [| c r IH]; simpl.
  - split; [intros _ c [] | reflexivity].
  - destruct (isxdigit c) eqn:X.
    + rewrite IH. split.
      * intros H c' [<- | Hc]; auto.
      * intros H c' Hc. apply H. now right.
    + split; [discriminate |].
      intros H. rewrite <- X. apply H. now left.
Qed.

Lemma even_length_test (hex : string) :
  (Z.of_nat (String.length hex) mod 2 =? 0) = true <-> Nat.Even (String.length hex).
Proof.
  rewrite Z.eqb_eq. split.
  - intros H. exists (Z.to_nat (Z.of_nat (String.length hex) / 2)).
    pose proof (Z.div_mod (Z.of_nat (String.length hex)) 2 ltac:(lia)). lia.
  - intros [k Hk]. rewrite Hk, Nat2Z.inj_mul, Z.mul_comm. apply Z.mod_mul. lia.
Qed.

Lemma IsValidHexMessage_true (hex : string) :
  IsValidHexMessage hex = true <->
  hex <> EmptyString /\ Nat.Even (String.length hex) /\ all_xdigit hex = true.
Proof.
  unfold IsValidHexMessage. destruct hex as [| c r].
  - split; [discriminate | intros [H _]; congruence].
  - rewrite <- even_length_test.
    destruct (_ =? 0); simpl negb; cbv iota.
    + split; [intros H; repeat split; [discriminate | exact H] | intros (_ & _ & H); exact H].
    + split; [discriminate | intros (_ & H & _); discriminate].
Qed.

End ValidationFacts.

(** C3, as amended.  [IsValidHexMessage h] holds exactly when [h] is not
    empty, has even length and consists of hexadecimal digits; every valid
    [h] is parsed by [parse_payload] into [4 * length h] bits (so parsing
    fails only on invalid messages); and parsing fails on every empty or
    odd-length message. *)
Theorem IsValidHexMessage_iff_and_parse_payload (h : string) :
  (Utils.IsValidHexMessage h = true <-> h <> EmptyString /\ Utils.spec_valid_hex h)
  /\ (Utils.IsValidHexMessage h = true ->
      List.length (Utils.parse_payload h) = (4 * String.length h)%nat
      /\ ~ Utils.parse_payload_fails h)
  /\ (h = EmptyString \/ Nat.Odd (String.length h) -> Utils.parse_payload_fails h).
Proof.
  unfold Utils.spec_valid_hex, Utils.parse_payload_fails.
  rewrite IsValidHexMessage_true, <- all_xdigit_spec.
  split; [tauto |]. split.
  - intros (Hne & He & Hx).
    assert (L : List.length (Utils.parse_payload h) = (4 * String.length h)%nat).
    { destruct h as [| c r]; [congruence |]. unfold Utils.parse_payload.
      rewrite parse_payload_loop_length; auto. }
    split; [exact L |].
    intros E. rewrite E in L. destruct h; [congruence | simpl in L; lia].
  - intros [-> | Ho]; [reflexivity |].
    destruct h as [| c r]; [reflexivity |].
    unfold Utils.parse_payload. now apply parse_payload_loop_odd.
Qed.

(** C3 as stated fails twice: the empty message has even length and only
    hexadecimal digits but is not valid; and ["1g"] is not valid although
    [parse_payload] accepts it ([std::stoi] stops at the first character that
    is not a digit). *)
Lemma IsValidHexMessage_claim_counterexample :
  ~ ((forall h, Utils.IsValidHexMessage h = true <-> Utils.spec_valid_hex h)
     /\ (forall h, Utils.parse_payload_fails h <-> Utils.IsValidHexMessage h = false))
  /\ (Utils.spec_valid_hex "" /\ Utils.IsValidHexMessage "" = false)
  /\ (Utils.IsValidHexMessage "1g" = false
      /\ Utils.parse_payload "1g" = [0; 0; 0; 0; 0; 0; 0; 1]).
Proof.
  assert (V : Utils.spec_valid_hex "").
  { split; [exists 0%nat; reflexivity | intros c []]. }
  split; [| split; [split; [exact V | reflexivity] | split; reflexivity]].
  intros [H _]. apply H in V. discriminate V.
Qed.


(* ------------------------------------------------------------------ *)
(** ** FrameBuffer *)

Section FrameBufferFacts.
Import FrameBuffer.
Context {A : Type}.

(** C10. When fewer than [frame_size * channels] samples are buffered,
    [pop_frame] returns the empty vector and leaves the buffer as it was.
    The product is the one the code computes, in [size_t]. *)
Theorem pop_frame_insufficient (fb : t A) (frame_size : Z) :
  size fb < CInt.size_mul frame_size (channels fb) ->
  pop_frame fb frame_size = ([], fb).
Proof.
  intros H. unfold pop_frame, samples_needed.
  apply Z.ltb_lt in H. now rewrite H.
Qed.

Lemma size_mul_range (a b : Z) : 0 <= CInt.size_mul a b < CInt.size_max.
Proof. unfold CInt.size_mul. apply Z.mod_pos_bound. reflexivity. Qed.

(** The loop runs its body on the whole frames of the buffer, in order, and
    leaves the remainder. *)
Lemma while_has_frame_fold {S : Type} (body : list A -> S -> S) (n ch : Z) :
  0 < CInt.size_mul n ch ->
  forall fuel (l : list A) (s : S), (List.length l <= fuel)%nat ->
  exists frames rest,
    while_has_frame body n fuel (mk l ch) s
    = Some (mk rest ch, fold_left (fun s' frame => body frame s') frames s)
    /\ chopped (CInt.size_mul n ch) l frames rest.
Proof.
  intros Hbs. set (bs := CInt.size_mul n ch) in *.
  induction fuel as [| fuel IH]; intros l s Hl;
    cbn [while_has_frame]; unfold has_frame, samples_needed, size; cbn [buffer channels];
    fold bs; destruct (bs <=? Z.of_nat (List.length l)) eqn:E.
  - apply Z.leb_le in E. lia.
  - apply Z.leb_gt in E. exists [], l. repeat split; auto.
  - apply Z.leb_le in E.
    unfold pop_frame, samples_needed, size; cbn [buffer channels]. fold bs.
    replace (Z.of_nat (List.length l) <? bs) with false by (symmetry; apply Z.ltb_ge; lia).
    destruct (IH (skipn (Z.to_nat bs) l) (body (firstn (Z.to_nat bs) l) s))
      as (frames & rest & Hrun & Hcat & Hrest & Hall).
    { rewrite length_skipn. lia. }
    exists (firstn (Z.to_nat bs) l :: frames), rest. split.
    + rewrite Hrun. reflexivity.
    + repeat split; auto.
      * cbn [concat]. rewrite <- app_assoc, Hcat. apply firstn_skipn.
      * constructor; auto. rewrite length_firstn. lia.
  - apply Z.leb_gt in E. exists [], l. repeat split; auto.
Qed.

Lemma fold_left_collect (frames acc : list (list A)) :
  fold_left (fun s' frame => collect frame s') frames acc = acc ++ frames.
Proof.
  revert acc; induction frames as [| f frames IH]; intros acc; cbn [fold_left].
  - now rewrite app_nil_r.
  - rewrite IH. unfold collect. now rewrite <- app_assoc.
Qed.

Lemma while_has_frame_collect (n ch : Z) :
  0 < CInt.size_mul n ch ->
  forall fuel (l : list A) acc, (List.length l <= fuel)%nat ->
  exists frames rest,
    while_has_frame collect n fuel (mk l ch) acc = Some (mk rest ch, acc ++ frames)
    /\ chopped (CInt.size_mul n ch) l frames rest.
Proof.
  intros Hbs fuel l acc Hl.
  destruct (while_has_frame_fold collect n ch Hbs fuel l acc Hl)
    as (frames & rest & Hrun & Hc).
  exists frames, rest. now rewrite Hrun, fold_left_collect.
Qed.

Lemma app_same_length (l1 l2 m1 m2 : list A) :
  List.length l1 = List.length l2 -> l1 ++ m1 = l2 ++ m2 -> l1 = l2 /\ m1 = m2.
Proof.
  revert l2; induction l1 as [| x l1 IH]; intros [| y l2] Hlen Heq;
    simpl in *; try discriminate; auto.
  injection Heq as -> Heq. destruct (IH l2) as [-> ->]; auto.
Qed.

Lemma chopped_unique (bs : Z) (l : list A) frames1 rest1 frames2 rest2 :
  0 < bs ->
  chopped bs l frames1 rest1 -> chopped bs l frames2 rest2 ->
  frames1 = frames2 /\ rest1 = rest2.
Proof.
  intros Hbs (H1 & R1 & F1) (H2 & R2 & F2). subst l.
  revert frames2 H2 F2.
  induction F1 as [| f1 fs1 Hf1 F1 IH]; intros frames2 H2 F2.
  - destruct F2 as [| f2 fs2 Hf2 F2]; [auto |].
    exfalso. cbn [concat app] in H2. rewrite <- H2 in R1.
    rewrite <- app_assoc, length_app in R1. lia.
  - destruct F2 as [| f2 fs2 Hf2 F2].
    + exfalso. cbn [concat app] in H2. rewrite H2 in R2.
      rewrite <- app_assoc, length_app in R2. lia.
    + cbn [concat] in H2. rewrite <- !app_assoc in H2.
      apply app_same_length in H2 as [-> H2]; [| lia].
      destruct (IH fs2 H2 F2) as [-> ->]. auto.
Qed.

Lemma push_chunks_collect (n ch : Z) :
  0 < CInt.size_mul n ch ->
  forall chunks (l0 : list A) acc,
    Z.of_nat (List.length l0) < CInt.size_mul n ch ->
    exists frames rest,
      push_chunks n (mk l0 ch) acc chunks = Some (mk rest ch, acc ++ frames)
      /\ chopped (CInt.size_mul n ch) (l0 ++ concat chunks) frames rest.
Proof.
  intros Hbs. induction chunks as [| c cs IH]; intros l0 acc Hl0.
  - exists [], l0. cbn [push_chunks concat]. rewrite !app_nil_r.
    repeat split; auto.
  - cbn [push_chunks]. unfold push_then_pop, process_frames, push_samples.
    cbn [buffer channels].
    destruct (while_has_frame_collect n ch Hbs (List.length (l0 ++ c)) (l0 ++ c) acc)
      as (frames1 & rest1 & Hrun1 & Hcat1 & Hrest1 & Hall1); [lia |].
    rewrite Hrun1.
    destruct (IH rest1 (acc ++ frames1) Hrest1)
      as (frames2 & rest2 & Hrun2 & Hcat2 & Hrest2 & Hall2).
    exists (frames1 ++ frames2), rest2. split.
    + rewrite Hrun2. now rewrite app_assoc.
    + repeat split; auto.
      * rewrite concat_app, <- app_assoc, Hcat2. cbn [concat].
        rewrite !app_assoc. now rewrite Hcat1.
      * apply Forall_app; auto.
Qed.

(** C8. For a frame size whose sample count [frame_size * channels] is not
    zero, pushing the chunks one after the other and popping frames whenever
    they are available gives the frames (and leaves the remainder) that
    pushing the concatenation of the chunks at once and popping gives. *)
Theorem push_chunks_same_as_push_at_once (ch n : Z) (chunks : list (list A)) :
  0 < CInt.size_mul n ch ->
  exists fb popped,
    push_chunks n (make ch) [] chunks = Some (fb, popped)
    /\ push_then_pop n (make ch) [] (concat chunks) = Some (fb, popped).
Proof.
  intros Hbs.
  destruct (push_chunks_collect n ch Hbs chunks [] []) as (f1 & r1 & Hrun1 & Hc1).
  { simpl. lia. }
  unfold push_then_pop, process_frames, push_samples, make in *.
  cbn [buffer channels app] in *.
  destruct (while_has_frame_collect n ch Hbs (List.length (concat chunks)) (concat chunks) [])
    as (f2 & r2 & Hrun2 & Hc2); [lia |].
  destruct (chopped_unique _ _ _ _ _ _ Hbs Hc1 Hc2) as [-> ->].
  eauto.
Qed.

End FrameBufferFacts.

Lemma push_chunks_same_as_push_at_once_witness :
  0 < CInt.size_mul 2 1
  /\ exists fb popped,
       FrameBuffer.push_chunks 2 (FrameBuffer.make 1) [] [[1; 2; 3]; [4]; [5; 6; 7]]
       = Some (fb, popped)
       /\ FrameBuffer.push_then_pop 2 (FrameBuffer.make 1) []
            (concat [[1; 2; 3]; [4]; [5; 6; 7]]) = Some (fb, popped).
Proof.
  assert (H : 0 < CInt.size_mul 2 1) by (vm_compute; reflexivity).
  split; [exact H |].
  exact (push_chunks_same_as_push_at_once 1 2 [[1; 2; 3]; [4]; [5; 6; 7]] H).
Defined.

Lemma pop_frame_insufficient_witness :
  FrameBuffer.size (FrameBuffer.mk [1; 2; 3] 2) < CInt.size_mul 2 2
  /\ FrameBuffer.pop_frame (FrameBuffer.mk [1; 2; 3] 2) 2
     = ([], FrameBuffer.mk [1; 2; 3] 2).
Proof.
  assert (H : FrameBuffer.size (FrameBuffer.mk [1; 2; 3] 2) < CInt.size_mul 2 2)
    by (vm_compute; reflexivity).
  split; [exact H | exact (pop_frame_insufficient (FrameBuffer.mk [1; 2; 3] 2) 2 H)].
Defined.

(* ------------------------------------------------------------------ *)
(** ** Comparisons of samples *)

Section SampleFacts.
Import Num.

Lemma Qltb_lt (a b : Q) : Qltb a b = true <-> (a < b)%Q.
Proof.
  unfold Qltb. rewrite negb_true_iff, <- not_true_iff_false, Qle_bool_iff.
  split; [apply Qnot_le_lt | apply Qlt_not_le].
Qed.

Lemma Qltb_ge (a b : Q) : Qltb a b = false <-> ~ (a < b)%Q.
Proof.
  rewrite <- Qltb_lt. destruct (Qltb a b); split; congruence.
Qed.

End SampleFacts.

(* ------------------------------------------------------------------ *)
(** ** Limiter *)

Section LimiterFacts.
Import Num Limiter.

Lemma fold_left_preserves {S I : Type} (P : S -> Prop) (f : S -> I -> S) :
  (forall s i, P s -> P (f s i)) ->
  forall (idx : list I) (s : S), P s -> P (fold_left f idx s).
Proof.
  intros Hf. induction idx as [| i idx IH]; intros s Hs; simpl; auto.
Qed.

Lemma set_length (v : list Q) (i : nat) (x : Q) :
  List.length (set v i x) = List.length v.
Proof.
  revert i; induction v as [| y v IH]; intros [| i]; simpl; auto.
Qed.

Lemma ramps_length (la : Z) (buf mb : list Q) :
  List.length (ramps la buf mb) = List.length mb.
Proof.
  unfold ramps.
  apply (fold_left_preserves (fun m => List.length m = List.length mb)); [| reflexivity].
  intros m i Hm. unfold ramp. destruct (Qltb _ _); [| exact Hm].
  apply (fold_left_preserves (fun m => List.length m = List.length mb)); [| exact Hm].
  intros m' j Hm'. unfold ramp_at. destruct (_ <? _); [| exact Hm'].
  now rewrite set_length.
Qed.

Lemma emit_output_length (d : Q) (buf mb : list Q) (idx : list nat) (st : Q * list Q) :
  List.length (snd (fold_left (emit d buf mb) idx st))
  = (List.length (snd st) + List.length idx)%nat.
Proof.
  revert st; induction idx as [| i idx IH]; intros [m out]; simpl.
  - lia.
  - rewrite IH. simpl. rewrite length_app. simpl. lia.
Qed.

Lemma process_lengths (l : t) (samples : list Q) :
  settled l ->
  let '(out, l') := process l samples in
  settled l'
  /\ look_ahead l' = look_ahead l
  /\ Z.of_nat (List.length out)
     = Z.max 0 (Z.of_nat (List.length (buffer l)) + Z.of_nat (List.length samples)
                - look_ahead l)
  /\ Z.of_nat (List.length (buffer l'))
     = Z.min (look_ahead l)
             (Z.of_nat (List.length (buffer l)) + Z.of_nat (List.length samples)).
Proof.
  intros [Hlen Hla]. unfold process.
  set (buf := buffer l ++ samples).
  set (mb := ramps _ _ _).
  assert (Hbuf : List.length buf
                 = (List.length (buffer l) + List.length samples)%nat)
    by (unfold buf; now rewrite length_app).
  assert (Hmb : List.length mb = List.length buf).
  { unfold mb. rewrite ramps_length, length_app, repeat_length. lia. }
  destruct (look_ahead l <? Z.of_nat (List.length buf)) eqn:E.
  - apply Z.ltb_lt in E.
    set (todo := Z.to_nat _).
    pose proof (emit_output_length (decay_coeff l) buf mb (seq 0 todo) (maximum l, [])) as Hout.
    destruct (fold_left _ _ _) as [m out]. cbn [snd List.length] in Hout.
    rewrite length_seq in Hout.
    unfold settled. cbn [look_ahead buffer max_buffer].
    rewrite !length_skipn. unfold todo in *. repeat split; lia.
  - apply Z.ltb_ge in E.
    unfold settled. cbn [look_ahead buffer max_buffer List.length].
    repeat split; lia.
Qed.

Lemma process_all_lengths (chunks : list (list Q)) :
  forall l, settled l ->
  Z.of_nat (List.length (concat (fst (process_all l chunks))))
  = Z.max 0 (Z.of_nat (List.length (buffer l)) + Z.of_nat (List.length (concat chunks))
             - look_ahead l).
Proof.
  induction chunks as [| c cs IH]; intros l Hl.
  - destruct Hl as [_ Hl]. simpl. lia.
  - cbn [process_all]. pose proof (process_lengths l c Hl) as Hp.
    destruct (process l c) as [out l']. destruct Hp as (Hl' & Hla & Hout & Hbuf).
    specialize (IH l' Hl').
    destruct (process_all l' cs) as [outs l'']. cbn [fst concat] in *.
    rewrite !length_app, !Nat2Z.inj_add, IH, Hout, Hbuf, Hla.
    destruct Hl as [_ Hl]. lia.
Qed.

Lemma make_settled (decay : Z -> Q) (sample_rate : Z) (l : t) :
  make decay sample_rate = Some l ->
  settled l /\ buffer l = [] /\ 1 <= look_ahead l.
Proof.
  unfold make. destruct (_ <? 1) eqn:E; [discriminate |].
  apply Z.ltb_ge in E. intros [= <-]. unfold settled. simpl. repeat split; lia.
Qed.

End LimiterFacts.

(** C5. However the input is split across calls of [process], a limiter
    fresh from its constructor has emitted, after any number of calls, as
    many samples as it has received less [look_ahead]; and while it has
    received at most [look_ahead] samples every call returns an empty
    vector. *)
Theorem limiter_latency (decay : Z -> Q) (sample_rate : Z) (l : Limiter.t)
    (chunks : list (list Q)) :
  Limiter.make decay sample_rate = Some l ->
  Z.of_nat (List.length (concat (fst (Limiter.process_all l chunks))))
  = Z.max 0 (Z.of_nat (List.length (concat chunks)) - Limiter.look_ahead l)
  /\ (Z.of_nat (List.length (concat chunks)) <= Limiter.look_ahead l ->
      Forall (fun out => out = []) (fst (Limiter.process_all l chunks))).
Proof.
  intros Hmake. apply make_settled in Hmake as (Hs & Hb & _).
  pose proof (process_all_lengths chunks l Hs) as H. rewrite Hb in H.
  cbn [List.length Z.of_nat Z.add] in H.
  split; [exact H |].
  intros Hle. apply concat_nil_Forall, length_zero_iff_nil. lia.
Qed.

Lemma limiter_latency_witness :
  Limiter.make (fun _ => 1 # 2)%Q 400
  = Some (Limiter.mk 2 (1 # 2) 1 [] [])
  /\ (Z.of_nat (List.length (concat (fst (Limiter.process_all
          (Limiter.mk 2 (1 # 2) 1 [] []) [[1]; [1; 1]; [1; 1; 1]]%Q))))
      = Z.max 0 (Z.of_nat (List.length (concat [[1]; [1; 1]; [1; 1; 1]]%Q))
                 - Limiter.look_ahead (Limiter.mk 2 (1 # 2) 1 [] []))
      /\ (Z.of_nat (List.length (concat [[1]; [1; 1]; [1; 1; 1]]%Q))
          <= Limiter.look_ahead (Limiter.mk 2 (1 # 2) 1 [] []) ->
          Forall (fun out => out = [])
            (fst (Limiter.process_all (Limiter.mk 2 (1 # 2) 1 [] [])
                    [[1]; [1; 1]; [1; 1; 1]]%Q)))).
Proof.
  assert (H : Limiter.make (fun _ => 1 # 2)%Q 400
              = Some (Limiter.mk 2 (1 # 2) 1 [] [])) by reflexivity.
  split; [exact H |].
  exact (limiter_latency (fun _ => 1 # 2)%Q 400 _ [[1]; [1; 1]; [1; 1; 1]]%Q H).
Defined.

(** C6, as amended.  For a positive [sample_rate] the constructor either
    stops at its assertion, when [sample_rate < 200], or sets [look_ahead] to
    [sample_rate * 0.005] rounded down. *)
Theorem limiter_look_ahead_floor (decay : Z -> Q) (sample_rate : Z) :
  0 < sample_rate ->
  match Limiter.make decay sample_rate with
  | Some l =>
      200 <= sample_rate
      /\ Limiter.look_ahead l = Qfloor (inject_Z sample_rate * (5 # 1000))
  | None => sample_rate < 200
  end.
Proof.
  intros Hpos. unfold Limiter.make, Num.trunc, Qfloor.
  cbn [Qmult inject_Z Qnum Qden Pos.mul].
  rewrite Z.quot_div_nonneg by lia.
  destruct (_ <? 1) eqn:E.
  - apply Z.ltb_lt in E.
    pose proof (Z.div_mod (sample_rate * 5) 1000 ltac:(lia)).
    pose proof (Z.mod_pos_bound (sample_rate * 5) 1000 ltac:(lia)). lia.
  - apply Z.ltb_ge in E. cbn [Limiter.look_ahead]. split; [| reflexivity].
    pose proof (Z.div_mod (sample_rate * 5) 1000 ltac:(lia)).
    pose proof (Z.mod_pos_bound (sample_rate * 5) 1000 ltac:(lia)). lia.
Qed.

Lemma limiter_look_ahead_floor_witness :
  0 < 44100
  /\ match Limiter.make (fun _ => 1 # 2)%Q 44100 with
     | Some l =>
         200 <= 44100
         /\ Limiter.look_ahead l = Qfloor (inject_Z 44100 * (5 # 1000))
     | None => 44100 < 200
     end.
Proof.
  assert (H : 0 < 44100) by reflexivity.
  split; [exact H | exact (limiter_look_ahead_floor (fun _ => 1 # 2)%Q 44100 H)].
Defined.

(** C6 as stated fails: at 44100 Hz the product is 220.5, the constructor
    keeps 220, and the ceiling is 221. *)
Lemma limiter_look_ahead_ceiling_counterexample :
  ~ (forall (decay : Z -> Q) (sample_rate : Z), 0 < sample_rate ->
       exists l, Limiter.make decay sample_rate = Some l
                 /\ Limiter.look_ahead l = Qceiling (inject_Z sample_rate * (5 # 1000)))
  /\ (exists l, Limiter.make (fun _ => 1 # 2)%Q 44100 = Some l
                /\ Limiter.look_ahead l = 220)
  /\ Qceiling (inject_Z 44100 * (5 # 1000)) = 221.
Proof.
  split; [| split; [eexists; split; reflexivity | reflexivity]].
  intros H.
  destruct (H (fun _ => 1 # 2)%Q 44100 ltac:(reflexivity)) as (l & Hl & Hc).
  vm_compute in Hl. injection Hl as <-. vm_compute in Hc. discriminate Hc.
Qed.

(* ------------------------------------------------------------------ *)
(** ** What the limiter does bound *)

Section LimiterBound.
Import Num Limiter.

Lemma max_float_ge_l (a b : Q) : (a <= max_float a b)%Q.
Proof.
  unfold max_float. destruct (Qltb a b) eqn:E.
  - apply Qltb_lt in E. now apply Qlt_le_weak.
  - apply Qle_refl.
Qed.

Lemma max_float_ge_r (a b : Q) : (b <= max_float a b)%Q.
Proof.
  unfold max_float. destruct (Qltb a b) eqn:E.
  - apply Qle_refl.
  - apply Qltb_ge in E. now apply Qnot_lt_le.
Qed.

Lemma get_set_same (v : list Q) (i : nat) (x : Q) :
  (i < List.length v)%nat -> get (set v i x) i = x.
Proof.
  unfold get. revert i; induction v as [| y v IH]; intros [| i] H; simpl in *;
    try lia; auto. apply IH. lia.
Qed.

Lemma get_set_other (v : list Q) (i k : nat) (x : Q) :
  k <> i -> get (set v i x) k = get v k.
Proof.
  unfold get. revert i k; induction v as [| y v IH]; intros [| i] [| k] H; simpl;
    try congruence; auto.
Qed.

Lemma set_beyond (v : list Q) (i : nat) (x : Q) :
  (List.length v <= i)%nat -> set v i x = v.
Proof.
  revert i; induction v as [| y v IH]; intros [| i] H; simpl in *; try lia; auto.
  f_equal. apply IH. lia.
Qed.

(** Raising an entry to a maximum never lowers any entry. *)
Lemma set_max_keeps (v : list Q) (p k : nat) (y c : Q) :
  (c <= get v k)%Q -> (c <= get (set v p (max_float (get v p) y)) k)%Q.
Proof.
  intros H. destruct (Nat.eq_dec k p) as [-> | Hne].
  - destruct (Nat.lt_ge_cases p (List.length v)) as [Hlt | Hge].
    + rewrite get_set_same by exact Hlt.
      eapply Qle_trans; [exact H | apply max_float_ge_l].
    + now rewrite set_beyond.
  - now rewrite get_set_other.
Qed.

Lemma ramp_at_keeps (la : Z) (peak : Q) (i j k : nat) (m : list Q) (c : Q) :
  (c <= get m k)%Q -> (c <= get (ramp_at la peak i m j) k)%Q.
Proof.
  intros H. unfold ramp_at. destruct (_ <? _); [| exact H].
  now apply set_max_keeps.
Qed.

Lemma ramp_keeps (la : Z) (buf m : list Q) (i k : nat) (c : Q) :
  (c <= get m k)%Q -> (c <= get (ramp la buf m i) k)%Q.
Proof.
  intros H. unfold ramp. destruct (Qltb _ _); [| exact H].
  apply (fold_left_preserves (fun m' => (c <= get m' k)%Q)); [| exact H].
  intros m' j Hm'. now apply ramp_at_keeps.
Qed.

Lemma ramps_keeps (la : Z) (buf : list Q) (idx : list nat) (m : list Q) (k : nat) (c : Q) :
  (c <= get m k)%Q -> (c <= get (fold_left (ramp la buf) idx m) k)%Q.
Proof.
  intros H.
  apply (fold_left_preserves (fun m' => (c <= get m' k)%Q)); [| exact H].
  intros m' i Hm'. now apply ramp_keeps.
Qed.

Lemma ramp_at_length (la : Z) (peak : Q) (i j : nat) (m : list Q) :
  List.length (ramp_at la peak i m j) = List.length m.
Proof.
  unfold ramp_at. destruct (_ <? _); [apply set_length | reflexivity].
Qed.

Lemma ramp_length (la : Z) (buf m : list Q) (i : nat) :
  List.length (ramp la buf m i) = List.length m.
Proof.
  unfold ramp. destruct (Qltb _ _); [| reflexivity].
  apply (fold_left_preserves (fun m' => List.length m' = List.length m)); [| reflexivity].
  intros m' j Hm'. now rewrite ramp_at_length.
Qed.

(** The round [j = 0] of the inner loop raises the gain of the peak itself,
    provided the peak is not at position 0. *)
Lemma ramp_covers_peak (la : Z) (buf m : list Q) (i : nat) :
  1 <= la -> (1 <= i)%nat -> (i < List.length m)%nat ->
  Qltb 1 (fabs (get buf i)) = true ->
  (Qabs (get buf i) <= get (ramp la buf m i) i)%Q.
Proof.
  intros Hla Hi Hlen Hpeak. unfold ramp. rewrite Hpeak.
  destruct (Z.to_nat la) as [| n] eqn:En; [lia |].
  cbn [seq fold_left].
  apply (fold_left_preserves (fun m' => (Qabs (get buf i) <= get m' i)%Q)).
  - intros m' j Hm'. now apply ramp_at_keeps.
  - unfold ramp_at.
    replace (0 <? Z.of_nat i - Z.of_nat 0) with true by (symmetry; apply Z.ltb_lt; lia).
    rewrite Nat.sub_0_r, get_set_same by exact Hlen.
    eapply Qle_trans; [| apply max_float_ge_r].
    unfold fabs, Qdiv. cbn [Z.of_nat inject_Z].
    apply Qle_lteq. right. ring.
Qed.

Lemma ramps_cover (la : Z) (buf m : list Q) (i : nat) :
  1 <= la -> (1 <= i)%nat -> (i < List.length buf)%nat ->
  List.length m = List.length buf ->
  (1 <= get m i)%Q ->
  (Qabs (get buf i) <= get (ramps la buf m) i)%Q.
Proof.
  intros Hla Hi Hlen Hm H1. unfold ramps.
  destruct (Qltb 1 (fabs (get buf i))) eqn:Hpeak.
  - replace (List.length buf) with (i + S (List.length buf - i - 1))%nat by lia.
    rewrite seq_app, fold_left_app. cbn [seq fold_left Nat.add].
    apply ramps_keeps.
    apply ramp_covers_peak; auto.
    rewrite <- Hm in Hlen.
    apply (fold_left_preserves (fun m' => (i < List.length m')%nat)); [| exact Hlen].
    intros m' j Hm'. now rewrite ramp_length.
  - apply Qltb_ge in Hpeak. apply Qnot_lt_le in Hpeak.
    apply ramps_keeps. eapply Qle_trans; [exact Hpeak | exact H1].
Qed.


Lemma Qabs_div_le (b m : Q) : (0 < m)%Q -> (Qabs b <= m)%Q -> bounded (b / m).
Proof.
  intros Hm Hb. unfold bounded, Qdiv.
  rewrite Qabs_Qmult, Qabs_Qinv, (Qabs_pos m) by now apply Qlt_le_weak.
  apply Qle_shift_div_r; [exact Hm |]. now rewrite Qmult_1_l.
Qed.

Lemma emit_bounded (d : Q) (buf mb : list Q) (maximum : Q) (out : list Q) (i : nat) :
  covered buf mb i ->
  exists maximum' o,
    emit d buf mb (maximum, out) i = (maximum', out ++ [o]) /\ bounded o.
Proof.
  intros [H1 Hb]. unfold emit.
  set (m1 := (maximum * d + get mb i * (1 - d))%Q).
  set (m2 := if Qltb m1 (get mb i) then get mb i else m1).
  exists m2, (get buf i / m2)%Q. split; [reflexivity |].
  assert (Hm2 : (get mb i <= m2)%Q).
  { unfold m2. destruct (Qltb m1 (get mb i)) eqn:E; [apply Qle_refl |].
    apply Qltb_ge in E. now apply Qnot_lt_le. }
  apply Qabs_div_le.
  - eapply Qlt_le_trans; [| exact Hm2].
    eapply Qlt_le_trans; [| exact H1]. reflexivity.
  - eapply Qle_trans; [exact Hb | exact Hm2].
Qed.

Lemma emit_all_bounded (d : Q) (buf mb : list Q) (idx : list nat) :
  (forall i, In i idx -> covered buf mb i) ->
  forall maximum out,
  exists maximum' outs,
    fold_left (emit d buf mb) idx (maximum, out) = (maximum', out ++ outs)
    /\ Forall bounded outs.
Proof.
  induction idx as [| i idx IH]; intros Hcov maximum out.
  - exists maximum, []. cbn [fold_left]. rewrite app_nil_r. auto.
  - cbn [fold_left].
    destruct (emit_bounded d buf mb maximum out i (Hcov i (or_introl eq_refl)))
      as (m' & o & -> & Ho).
    destruct (IH (fun k Hk => Hcov k (or_intror Hk)) m' (out ++ [o]))
      as (m'' & outs & -> & Houts).
    exists m'', (o :: outs). rewrite <- app_assoc. auto.
Qed.

Lemma get_app_repeat_ge1 (mb : list Q) (n i : nat) :
  (forall k, (k < List.length mb)%nat -> (1 <= get mb k)%Q) ->
  (i < List.length mb + n)%nat ->
  (1 <= get (mb ++ repeat 1%Q n) i)%Q.
Proof.
  intros H Hi. unfold get in *.
  destruct (Nat.lt_ge_cases i (List.length mb)) as [Hlt | Hge].
  - rewrite app_nth1 by exact Hlt. now apply H.
  - rewrite app_nth2 by exact Hge.
    rewrite nth_repeat_lt by lia. apply Qle_refl.
Qed.

(** After the two first loops of [process]: every gain is still at least
    1, and every position from [k0] on is served, where [k0] is 1 unless
    position 0 was served before the call. *)
Lemma ramps_serve (k0 : nat) (l : t) (samples : list Q) :
  serves_from k0 l -> (k0 = 1%nat \/ (k0 = 0%nat /\ buffer l <> [])) ->
  let buf := buffer l ++ samples in
  let mb := ramps (look_ahead l) buf (max_buffer l ++ repeat 1%Q (List.length samples)) in
  List.length mb = List.length buf
  /\ forall i, (i < List.length buf)%nat ->
       (1 <= get mb i)%Q /\ ((k0 <= i)%nat -> (Qabs (get buf i) <= get mb i)%Q).
Proof.
  intros (Hla & Hlen & _ & Hserve) Hk0 buf mb.
  assert (Hlen0 : List.length (max_buffer l ++ repeat 1%Q (List.length samples))
                  = List.length buf).
  { unfold buf. rewrite !length_app, repeat_length. lia. }
  split; [unfold mb; now rewrite ramps_length |].
  intros i Hi.
  assert (H1 : (1 <= get (max_buffer l ++ repeat 1%Q (List.length samples)) i)%Q).
  { apply get_app_repeat_ge1.
    - intros k Hk. apply Hserve. lia.
    - unfold buf in Hi. rewrite length_app in Hi. lia. }
  split.
  - unfold mb, ramps. now apply ramps_keeps.
  - intros Hki. destruct (Nat.eq_dec i 0) as [-> | Hpos].
    + destruct Hk0 as [-> | [_ Hne]]; [lia |].
      assert (H0 : (0 < List.length (buffer l))%nat)
        by (destruct (buffer l); [congruence | simpl; lia]).
      unfold mb, ramps. apply ramps_keeps.
      unfold buf, get. rewrite !app_nth1 by lia.
      apply Hserve; lia.
    + unfold mb. apply ramps_cover; auto; lia.
Qed.

(** One call of [process]: either nothing is emitted, or the samples
    emitted are bounded, but for the first when position 0 was not served,
    and from then on every position is served. *)
Lemma process_serves (k0 : nat) (l l' : t) (samples out : list Q) :
  serves_from k0 l -> (k0 = 1%nat \/ (k0 = 0%nat /\ buffer l <> [])) ->
  process l samples = (out, l') ->
  (out = [] /\ serves_from k0 l' /\ (buffer l <> [] -> buffer l' <> []))
  \/ (serves_from 0 l' /\ buffer l' <> []
      /\ exists o rest, out = o :: rest /\ Forall bounded rest
                        /\ (k0 = 0%nat -> bounded o)).
Proof.
  intros Hs Hk0.
  pose proof (ramps_serve k0 l samples Hs Hk0) as Hr. cbv zeta in Hr.
  destruct Hs as (Hla & Hlen & Hsettled & Hserve).
  unfold process.
  set (buf := buffer l ++ samples) in *.
  set (mb := ramps _ _ _) in *.
  destruct Hr as [Hmb Hcov].
  destruct (look_ahead l <? Z.of_nat (List.length buf)) eqn:E.
  - apply Z.ltb_lt in E.
    set (todo := Z.to_nat _).
    assert (Htodo : (1 <= todo <= List.length buf)%nat) by (unfold todo; lia).
    assert (Hkeep : Z.of_nat (List.length buf - todo) = look_ahead l)
      by (unfold todo; lia).
    replace (seq 0 todo) with (0%nat :: seq 1 (todo - 1))
      by (replace todo with (S (todo - 1)) at 2 by lia; reflexivity).
    cbn [fold_left].
    unfold emit at 2.
    set (m0 := if Qltb _ _ then _ else _).
    cbn [app].
    destruct (emit_all_bounded (decay_coeff l) buf mb (seq 1 (todo - 1)))
      with (maximum := m0) (out := [(get buf 0 / m0)%Q])
      as (m' & outs & Hfold & Houts).
    { intros i Hi. apply in_seq in Hi. split; apply Hcov; lia. }
    rewrite Hfold. intros [= <- <-]. right.
    split; [| split].
    + unfold serves_from. cbn [look_ahead buffer max_buffer].
      rewrite !length_skipn.
      split; [exact Hla |]. split; [lia |]. split; [lia |].
      intros i Hi. unfold get. rewrite !nth_skipn.
      split; [| intros _]; apply Hcov; lia.
    + cbn [buffer]. intros Hnil.
      apply (f_equal (@List.length Q)) in Hnil. rewrite length_skipn in Hnil.
      simpl in Hnil. lia.
    + exists (get buf 0 / m0)%Q, outs. split; [reflexivity |]. split; [exact Houts |].
      intros ->.
      destruct (emit_bounded (decay_coeff l) buf mb (maximum l) [] 0) as (m1 & o1 & He & Ho).
      { split; apply Hcov; lia. }
      unfold emit in He. fold m0 in He. cbn [app] in He. injection He as _ <-. exact Ho.
  - apply Z.ltb_ge in E. intros [= <- <-]. left. split; [reflexivity |]. split.
    + unfold serves_from. cbn [look_ahead buffer max_buffer].
      split; [exact Hla |]. split; [exact Hmb |]. split; [exact E |]. exact Hcov.
    + cbn [buffer]. unfold buf. intros Hne Hnil.
      apply app_eq_nil in Hnil. tauto.
Qed.

Lemma process_all_bounded (chunks : list (list Q)) :
  forall l, serves_from 0 l -> buffer l <> [] ->
  Forall bounded (concat (fst (process_all l chunks))).
Proof.
  induction chunks as [| c cs IH]; intros l Hs Hne; cbn [process_all].
  - constructor.
  - destruct (process l c) as [out l'] eqn:Hp.
    specialize (IH l').
    destruct (process_all l' cs) as [outs l''] eqn:Hpa. cbn [fst concat] in *.
    apply Forall_app.
    destruct (process_serves 0 l l' c out Hs (or_intror (conj eq_refl Hne)) Hp)
      as [(-> & Hs' & Hne') | (Hs' & Hne' & o & rest & -> & Hrest & Ho)].
    + split; [constructor | auto].
    + split; [constructor; auto | auto].
Qed.

Lemma process_all_bounded_but_first (chunks : list (list Q)) :
  forall l, serves_from 1 l ->
  Forall bounded (tl (concat (fst (process_all l chunks)))).
Proof.
  induction chunks as [| c cs IH]; intros l Hs; cbn [process_all].
  - constructor.
  - destruct (process l c) as [out l'] eqn:Hp.
    specialize (IH l'). pose proof (process_all_bounded cs l') as Hall.
    destruct (process_all l' cs) as [outs l''] eqn:Hpa. cbn [fst concat] in *.
    destruct (process_serves 1 l l' c out Hs (or_introl eq_refl) Hp)
      as [(-> & Hs' & _) | (Hs' & Hne' & o & rest & -> & Hrest & _)].
    + cbn [app]. auto.
    + cbn [app tl]. apply Forall_app. auto.
Qed.

End LimiterBound.

(** X10. Every sample a limiter fresh from its constructor emits, but the very
    first of its stream, is within the ceiling 1. *)
Lemma limiter_bounds_all_but_first (decay : Z -> Q) (sample_rate : Z) (l : Limiter.t)
    (chunks : list (list Q)) :
  Limiter.make decay sample_rate = Some l ->
  Forall bounded (tl (concat (fst (Limiter.process_all l chunks)))).
Proof.
  intros Hmake. apply process_all_bounded_but_first.
  apply make_settled in Hmake as ((Hlen & Hla) & Hb & H1).
  unfold serves_from. rewrite Hb in *. repeat split; auto; simpl in *; lia.
Qed.

Section FirstSample.
Import Num Limiter.

Lemma first_gain_one (d : Q) : (Examples.first_gain d == 1)%Q.
Proof.
  unfold Examples.first_gain. destruct (Qltb _ _); [reflexivity | ring].
Qed.

Lemma process_peak_then_silence (d : Q) :
  process (Examples.limiter_44100 d) Examples.peak_then_silence
  = ([(2 / Examples.first_gain d)%Q],
     mk 220 d (Examples.first_gain d) (repeat 0%Q 220) (repeat 1%Q 220)).
Proof.
  assert (R : ramps 220 (2%Q :: repeat 0%Q 220) (repeat 1%Q 221) = repeat 1%Q 221)
    by (vm_compute; reflexivity).
  unfold process, Examples.limiter_44100, Examples.peak_then_silence.
  cbn [look_ahead decay_coeff maximum buffer max_buffer app].
  replace (List.length (2%Q :: repeat 0%Q 220)) with 221%nat by reflexivity.
  rewrite R.
  replace (220 <? Z.of_nat 221) with true by reflexivity. cbv iota.
  replace (Z.to_nat (Z.of_nat 221 - 220)) with 1%nat by reflexivity.
  cbn [seq fold_left emit].
  replace (get (repeat 1%Q 221) 0) with 1%Q by reflexivity.
  replace (get (2%Q :: repeat 0%Q 220) 0) with 2%Q by reflexivity.
  reflexivity.
Qed.

End FirstSample.

(** C2 at its failing input.  At 44100 Hz the constructor sets [look_ahead]
    to 220; fed a first sample of 2.0 and 220 samples of silence in one call,
    [process] emits that first sample with gain 1: the output is 2, above the
    ceiling 1.  The test [int (i) - int (j) > 0] keeps the ramp away from
    position 0, so the gain of the first sample of a stream is never
    raised. *)
Theorem limiter_first_sample_not_limited (decay : Z -> Q) :
  Limiter.make decay 44100 = Some (Examples.limiter_44100 (decay 44100))
  /\ forall d : Q,
       Limiter.process (Examples.limiter_44100 d) Examples.peak_then_silence
       = ([(2 / Examples.first_gain d)%Q],
          Limiter.mk 220 d (Examples.first_gain d) (repeat 0%Q 220) (repeat 1%Q 220))
       /\ (2 / Examples.first_gain d == 2)%Q
       /\ ~ bounded (2 / Examples.first_gain d).
Proof.
  split; [reflexivity |]. intros d.
  split; [apply process_peak_then_silence |].
  unfold bounded. rewrite first_gain_one.
  split; [reflexivity |]. intros H. vm_compute in H. apply H. reflexivity.
Qed.

(* ------------------------------------------------------------------ *)
(** ** The embedder *)

(** C7. When the length of the input differs from [frame_size * channels]
    (the product [ProcessFrame] computes), the call returns the input as it
    is and the embedder after the call is the embedder before it: frame
    buffers, [frame_count] and limiter included. *)
Theorem ProcessFrame_size_mismatch {LimiterT : Type}
    (limiter_process : LimiterT -> list Q -> list Q * LimiterT)
    (M_PI : Q) (sin : Q -> Q) (frames_per_bit : Z)
    (w : RealtimeWatermarker.t LimiterT) (input_samples : list Q) (frame_size : Z) :
  (forall impl, RealtimeWatermarker.pImpl w = Some impl ->
     Z.of_nat (List.length input_samples)
     <> CInt.size_mul frame_size (channels (RealtimeWatermarker.config impl))) ->
  RealtimeWatermarker.ProcessFrame limiter_process M_PI sin frames_per_bit
    w input_samples frame_size
  = Some (input_samples, w).
Proof.
  intros H. unfold RealtimeWatermarker.ProcessFrame.
  destruct (RealtimeWatermarker.pImpl w) as [impl |]; [| reflexivity].
  specialize (H impl eq_refl). apply Z.eqb_neq in H. now rewrite H.
Qed.

Lemma ProcessFrame_size_mismatch_witness :
  (forall impl, RealtimeWatermarker.pImpl Examples.watermarker = Some impl ->
     Z.of_nat (List.length [0; 0; 0]%Q)
     <> CInt.size_mul 2 (channels (RealtimeWatermarker.config impl)))
  /\ RealtimeWatermarker.ProcessFrame Limiter.process (355 # 113) (fun x => x) 2
       Examples.watermarker [0; 0; 0]%Q 2
     = Some ([0; 0; 0]%Q, Examples.watermarker).
Proof.
  assert (H : forall impl, RealtimeWatermarker.pImpl Examples.watermarker = Some impl ->
            Z.of_nat (List.length [0; 0; 0]%Q)
            <> CInt.size_mul 2 (channels (RealtimeWatermarker.config impl))).
  { intros impl [= <-]. vm_compute. discriminate. }
  split; [exact H |].
  exact (ProcessFrame_size_mismatch Limiter.process (355 # 113) (fun x => x) 2
           Examples.watermarker [0; 0; 0]%Q 2 H).
Defined.

(* ------------------------------------------------------------------ *)
(** ** The detector *)

Section DetectorFacts.
Import Num RealtimeDetector.

Variable run_fft_abs : list Q -> list (list Q).

Lemma trunc_nonneg (q : Q) : (0 <= q)%Q -> 0 <= trunc q.
Proof.
  unfold Qle, trunc. simpl. intros H.
  apply Z.quot_pos; lia.
Qed.

Lemma bin_nonneg (f : Q) (rate size : Z) :
  (0 <= f)%Q -> 0 < rate -> 0 < size ->
  0 <= trunc (f / (inject_Z rate / (2 * inject_Z size)))%Q.
Proof.
  intros Hf Hr Hs. apply trunc_nonneg.
  assert (H2 : (0 < 2 * inject_Z size)%Q).
  { unfold Qlt. cbn -[Z.mul]. lia. }
  assert (Hres : (0 < inject_Z rate / (2 * inject_Z size))%Q).
  { apply Qlt_shift_div_l; [exact H2 |]. unfold Qlt. cbn -[Z.mul]. lia. }
  apply Qle_shift_div_l; [exact Hres |].
  now rewrite Qmult_0_l.
Qed.

Lemma analyze_frame_same_counters (d d' : Impl) (frame : list Q) :
  analyze_frame_for_watermark run_fft_abs d frame = Some d' -> same_counters d d'.
Proof.
  unfold analyze_frame_for_watermark, same_counters.
  destruct (run_fft_abs frame) as [| [| b bins] rows]; try (intros [= <-]; auto).
  repeat match goal with
         | |- context [if ?c then _ else _] => destruct c
         end; intros [= <-]; auto.
Qed.

Lemma analyze_frame_defined (d : Impl) (frame : list Q) :
  0 < sample_rate (config d) ->
  exists d', analyze_frame_for_watermark run_fft_abs d frame = Some d'.
Proof.
  intros Hrate. unfold analyze_frame_for_watermark.
  destruct (run_fft_abs frame) as [| [| b bins] rows]; eauto.
  set (size := Z.of_nat (List.length (b :: bins))).
  assert (Hsize : 0 < size) by (unfold size; simpl; lia).
  replace (sample_rate (config d) =? 0) with false by (symmetry; apply Z.eqb_neq; lia).
  pose proof (bin_nonneg 1000 _ _ ltac:(discriminate) Hrate Hsize) as H1.
  pose proof (bin_nonneg 1500 _ _ ltac:(discriminate) Hrate Hsize) as H2.
  destruct (_ && _); eauto.
  replace (_ || _) with false
    by (symmetry; apply orb_false_iff; split; apply Z.ltb_ge; assumption).
  repeat match goal with
         | |- context [if ?c then _ else _] => destruct c
         end; eauto.
Qed.

Lemma process_blocks_counters (frames : list (list Q)) :
  forall d, 0 < sample_rate (config d) -> 0 <= frames_processed d ->
  exists d',
    process_blocks run_fft_abs d frames = Some d'
    /\ 0 <= frames_processed d' <= frames_processed d + Z.of_nat (List.length frames)
    /\ detection_window_frames d' = detection_window_frames d
    /\ config d' = config d.
Proof.
  unfold process_blocks.
  induction frames as [| frame frames IH]; intros d Hrate Hfp.
  - exists d. simpl. repeat split; auto; lia.
  - cbn [fold_left process_block].
    destruct (analyze_frame_defined d frame Hrate) as [d1 Hd1].
    rewrite Hd1.
    destruct (analyze_frame_same_counters _ _ _ Hd1) as (Hf & Hw & Hc).
    set (d2 := mkImpl _ _ _ _ _ _ _ _).
    assert (Hfp2 : 0 <= frames_processed d2 <= frames_processed d + 1).
    { unfold d2. cbn [frames_processed]. unfold CInt.size_succ. rewrite Hf.
      pose proof (Z.mod_pos_bound (frames_processed d + 1) CInt.size_max ltac:(reflexivity)).
      pose proof (Z.mod_le (frames_processed d + 1) CInt.size_max ltac:(lia) ltac:(reflexivity)).
      lia. }
    destruct (IH d2) as (d' & Hrun & Hcnt & Hw' & Hc').
    { unfold d2. cbn [config]. now rewrite Hc. }
    { lia. }
    exists d'. rewrite Hrun. unfold d2 in Hw', Hc'. cbn [detection_window_frames config] in *.
    cbn [List.length]. repeat split; try congruence; lia.
Qed.

Lemma get_detection_result_early (d : Impl) (detected_message : string) (confidence : Q) :
  frames_processed d < detection_window_frames d / 2 ->
  get_detection_result d detected_message confidence = (false, detected_message, 0%Q).
Proof.
  intros H. unfold get_detection_result. apply Z.ltb_lt in H. now rewrite H.
Qed.


End DetectorFacts.

(** C9, as amended.  After [Reset], whatever the detector was before, and
    after each of the next blocks as long as fewer than
    [detection_window_frames / 2] of them have been processed, the blocks are
    processed and [get_detection_result] returns [false], leaves the message
    as it was and sets the confidence to zero. *)
Theorem detection_absent_after_reset (run_fft_abs : list Q -> list (list Q))
    (d : RealtimeDetector.Impl) (frames : list (list Q))
    (detected_message : string) (confidence : Q) :
  0 < sample_rate (RealtimeDetector.config d) ->
  Z.of_nat (List.length frames) < RealtimeDetector.detection_window_frames d / 2 ->
  exists d',
    RealtimeDetector.process_blocks run_fft_abs (RealtimeDetector.Impl_reset d) frames
    = Some d'
    /\ RealtimeDetector.get_detection_result d' detected_message confidence
       = (false, detected_message, 0%Q).
Proof.
  intros Hrate Hlen.
  destruct (process_blocks_counters run_fft_abs frames (RealtimeDetector.Impl_reset d))
    as (d' & Hrun & Hcnt & Hw & _); [exact Hrate | simpl; lia |].
  exists d'. split; [exact Hrun |].
  apply get_detection_result_early.
  rewrite Hw. cbn [RealtimeDetector.Impl_reset RealtimeDetector.frames_processed
                   RealtimeDetector.detection_window_frames] in *. lia.
Qed.

Lemma detection_absent_after_reset_witness :
  0 < sample_rate (RealtimeDetector.config (RealtimeDetector.Impl_make Examples.detector_config))
  /\ Z.of_nat (List.length (repeat Examples.block 3))
     < RealtimeDetector.detection_window_frames
         (RealtimeDetector.Impl_make Examples.detector_config) / 2
  /\ exists d',
       RealtimeDetector.process_blocks Examples.analyser_1500
         (RealtimeDetector.Impl_reset (RealtimeDetector.Impl_make Examples.detector_config))
         (repeat Examples.block 3)
       = Some d'
       /\ RealtimeDetector.get_detection_result d' "" 1%Q = (false, ""%string, 0%Q).
Proof.
  assert (H1 : 0 < sample_rate (RealtimeDetector.config
                                  (RealtimeDetector.Impl_make Examples.detector_config)))
    by reflexivity.
  assert (H2 : Z.of_nat (List.length (repeat Examples.block 3))
               < RealtimeDetector.detection_window_frames
                   (RealtimeDetector.Impl_make Examples.detector_config) / 2)
    by reflexivity.
  split; [exact H1 | split; [exact H2 |]].
  exact (detection_absent_after_reset Examples.analyser_1500
           (RealtimeDetector.Impl_make Examples.detector_config)
           (repeat Examples.block 3) "" 1%Q H1 H2).
Defined.

Lemma detector_after_eq (n : nat) :
  Examples.detector_after n
  = RealtimeDetector.process_blocks Examples.analyser_1500
      (RealtimeDetector.Impl_reset (RealtimeDetector.Impl_make Examples.detector_config))
      (repeat Examples.block n).
Proof. reflexivity. Qed.

Lemma detector_after_half_window :
  match Examples.detector_after 50 with
  | Some d' =>
      RealtimeDetector.frames_processed d' = 50
      /\ RealtimeDetector.detection_window_frames d' / 2 = 50
      /\ fst (RealtimeDetector.get_detection_result d' "" 0%Q)
         = (true, "48656c6c6f20576f726c6421"%string)
  | None => False
  end.
Proof. vm_compute. repeat split. Qed.

(** The same run through [ProcessFrame] and [GetDetectionResult]. *)
Lemma detector_api_after_half_window :
  match Examples.detector_api_after 50 with
  | Some det =>
      fst (RealtimeDetector.GetDetectionResult det "" 0%Q)
      = (true, "48656c6c6f20576f726c6421"%string)
  | None => False
  end.
Proof. vm_compute. reflexivity. Qed.

(** C9 as stated fails at the last of the [detection_window_frames / 2]
    blocks: after [Reset] and 50 blocks that carry the 1.5 kHz carrier the
    counter is 50, the guard [frames_processed < 50] no longer holds, and a
    detection is reported. *)
Lemma detection_present_after_half_window_counterexample :
  ~ (forall (run_fft_abs : list Q -> list (list Q)) (d : RealtimeDetector.Impl)
       (frames : list (list Q)) (detected_message : string) (confidence : Q),
       0 < sample_rate (RealtimeDetector.config d) ->
       Z.of_nat (List.length frames) <= RealtimeDetector.detection_window_frames d / 2 ->
       forall d',
         RealtimeDetector.process_blocks run_fft_abs (RealtimeDetector.Impl_reset d) frames
         = Some d' ->
         RealtimeDetector.absent
           (RealtimeDetector.get_detection_result d' detected_message confidence))
  /\ exists d',
       Examples.detector_after 50 = Some d'
       /\ RealtimeDetector.frames_processed d' = 50
       /\ RealtimeDetector.detection_window_frames d' / 2 = 50
       /\ fst (RealtimeDetector.get_detection_result d' "" 0%Q)
          = (true, "48656c6c6f20576f726c6421"%string).
Proof.
  pose proof detector_after_half_window as E.
  destruct (Examples.detector_after 50) as [d' |] eqn:Hrun; [| contradiction].
  split; [| exists d'; split; [reflexivity | exact E]].
  intros H. destruct E as (_ & _ & Hres).
  rewrite detector_after_eq in Hrun.
  assert (Hrate : 0 < sample_rate (RealtimeDetector.config
                                     (RealtimeDetector.Impl_make Examples.detector_config)))
    by reflexivity.
  assert (Hlen : Z.of_nat (List.length (repeat Examples.block 50))
                 <= RealtimeDetector.detection_window_frames
                      (RealtimeDetector.Impl_make Examples.detector_config) / 2)
    by (vm_compute; discriminate).
  pose proof (H _ _ _ ""%string 0%Q Hrate Hlen d' Hrun) as Habs.
  unfold RealtimeDetector.absent in Habs. rewrite Hres in Habs. discriminate Habs.
Qed.

(** The placeholder detector never reports a detection. *)
Lemma placeholder_never_detects (det : RealtimeDetectorPlaceholder.t)
    (detected_message : string) (confidence : Q) :
  RealtimeDetector.absent
    (RealtimeDetectorPlaceholder.GetDetectionResult det detected_message confidence).
Proof. reflexivity. Qed.






(* ================================================================== *)
(** * Further properties of the code *)

Import Letters LimiterInvariants.

(* ------------------------------------------------------------------ *)
(** ** Payload codec *)

Section CodecExtras.
Import Cstd Utils.

Lemma byte_bits_binary (v : Z) : Forall binary (byte_bits v).
Proof.
  unfold byte_bits. apply Forall_map, Forall_forall. intros bit _.
  change 1 with (Z.ones 1) at 1. rewrite Z.land_ones by lia.
  pose proof (Z.mod_pos_bound (Z.shiftr v bit) (2 ^ 1) ltac:(lia)).
  unfold binary. change (2 ^ 1) with 2 in *. lia.
Qed.

Lemma parse_payload_loop_shape (hex : string) :
  forall bitvec, Forall binary bitvec ->
  Forall binary (parse_payload_loop hex bitvec)
  /\ (parse_payload_loop hex bitvec = []
      \/ Nat.Even (String.length hex)
         /\ List.length (parse_payload_loop hex bitvec)
            = (List.length bitvec + 4 * String.length hex)%nat).
Proof.
  induction hex as [| c | c1 c2 r IH] using string_pair_ind; intros bitvec Hb.
  - cbn. split; [exact Hb |]. right. split; [exists 0%nat; reflexivity | lia].
  - cbn. auto.
  - cbn [parse_payload_loop]. destruct (stoi16 _) as [v |]; [| auto].
    destruct (IH (bitvec ++ byte_bits v)) as [H1 H2].
    { apply Forall_app. split; [exact Hb | apply byte_bits_binary]. }
    split; [exact H1 |]. destruct H2 as [H2 | [[k Hk] H2]]; [auto |].
    right. split.
    + exists (S k). cbn [String.length]. lia.
    + rewrite H2, length_app. cbn [String.length byte_bits map List.length]. lia.
Qed.

(** X1. Every entry of the vector [parse_payload] returns is 0 or 1, and
    the vector is either empty or holds eight bits for each of the
    [length hex / 2] pairs of an even-length message: never a partial
    result. *)
Theorem parse_payload_bits (hex : string) :
  Forall binary (parse_payload hex)
  /\ (parse_payload hex = []
      \/ Nat.Even (String.length hex)
         /\ List.length (parse_payload hex) = (8 * (String.length hex / 2))%nat).
Proof.
  destruct hex as [| c r]; [cbn; auto |].
  unfold parse_payload.
  destruct (parse_payload_loop_shape (String c r) [] (Forall_nil _)) as [H1 H2].
  split; [exact H1 |]. destruct H2 as [H2 | [[k Hk] H2]]; [auto |].
  right. split; [now exists k |]. rewrite H2, Hk.
  replace (2 * k)%nat with (k * 2)%nat by lia. rewrite Nat.div_mul by lia.
  cbn [List.length]. lia.
Qed.

Lemma parse_payload_loop_TextToHex (text : string) (bitvec : list Z) :
  parse_payload_loop (TextToHex text) bitvec
  = bitvec ++ flat_map (fun c => byte_bits (code c)) (list_ascii_of_string text).
Proof.
  revert bitvec; induction text as [| c r IH]; intros bitvec.
  - cbn. now rewrite app_nil_r.
  - cbn [TextToHex list_ascii_of_string flat_map].
    pose proof (stoi16_printf_02x c) as Hs.
    destruct (printf_02x_shape (code c)) as (a & b & Hp).
    rewrite Hp in *. cbn [append parse_payload_loop].
    rewrite Hs, IH. now rewrite <- app_assoc.
Qed.

(** A check that holds of the 256 byte values holds of every byte. *)
Lemma byte_cases (P : Z -> bool) :
  forallb P (map Z.of_nat (seq 0 256)) = true ->
  forall v, 0 <= v < 256 -> P v = true.
Proof.
  intros H v Hv. rewrite forallb_forall in H. apply H.
  apply in_map_iff. exists (Z.to_nat v). split; [lia |].
  apply in_seq. lia.
Qed.

Lemma bytes_of_bits_byte (v : Z) (n : nat) (rest : list Z) :
  0 <= v < 256 ->
  SpecDecode.bytes_of_bits (S n) (byte_bits v ++ rest)
  = v :: SpecDecode.bytes_of_bits n rest.
Proof.
  intros Hv. unfold byte_bits. cbn [map app SpecDecode.bytes_of_bits]. f_equal.
  apply Z.eqb_eq.
  apply (byte_cases
           (fun v => 128 * Z.land (Z.shiftr v 7) 1 + 64 * Z.land (Z.shiftr v 6) 1
                     + 32 * Z.land (Z.shiftr v 5) 1 + 16 * Z.land (Z.shiftr v 4) 1
                     + 8 * Z.land (Z.shiftr v 3) 1 + 4 * Z.land (Z.shiftr v 2) 1
                     + 2 * Z.land (Z.shiftr v 1) 1 + Z.land (Z.shiftr v 0) 1 =? v));
    [vm_compute; reflexivity | exact Hv].
Qed.

Lemma code_range (c : ascii) : 0 <= code c < 256.
Proof.
  destruct c as [[] [] [] [] [] [] [] []]; (vm_compute; split; [discriminate | reflexivity]).
Qed.

(** X2. The payload of a converted text: [parse_payload (TextToHex text)]
    is the bits of the characters of [text], eight per character and most
    significant first; packed eight by eight they give back the character
    codes. *)
Theorem parse_payload_TextToHex (text : string) :
  parse_payload (TextToHex text)
  = flat_map (fun c => byte_bits (code c)) (list_ascii_of_string text)
  /\ SpecDecode.bytes_of_bits (String.length text) (parse_payload (TextToHex text))
     = map code (list_ascii_of_string text).
Proof.
  assert (H : parse_payload (TextToHex text)
              = flat_map (fun c => byte_bits (code c)) (list_ascii_of_string text)).
  { destruct text as [| c r]; [reflexivity |].
    unfold parse_payload.
    destruct (printf_02x_shape (code c)) as (a & b & Hp).
    replace (match TextToHex (String c r) with
             | EmptyString => []
             | String _ _ => parse_payload_loop (TextToHex (String c r)) []
             end) with (parse_payload_loop (TextToHex (String c r)) [])
      by (cbn [TextToHex]; rewrite Hp; reflexivity).
    apply parse_payload_loop_TextToHex. }
  split; [exact H |]. rewrite H. clear H.
  induction text as [| c r IH]; [reflexivity |].
  cbn [list_ascii_of_string flat_map map String.length].
  rewrite bytes_of_bits_byte by apply code_range. now rewrite IH.
Qed.

Lemma hex_char_xdigit (d : Z) : 0 <= d < 16 -> isxdigit (hex_char d) = true.
Proof.
  intros Hd.
  pose proof (byte_cases
                (fun d => implb ((0 <=? d) && (d <? 16)) (isxdigit (hex_char d)))
                ltac:(vm_compute; reflexivity) d ltac:(lia)) as Hc.
  cbv beta in Hc.
  replace ((0 <=? d) && (d <? 16)) with true in Hc
    by (symmetry; apply andb_true_iff; split; [apply Z.leb_le | apply Z.ltb_lt]; lia).
  exact Hc.
Qed.

Lemma all_xdigit_TextToHex (text : string) : all_xdigit (TextToHex text) = true.
Proof.
  induction text as [| c r IH]; [reflexivity |].
  cbn [TextToHex]. unfold printf_02x. cbn [append all_xdigit].
  pose proof (code_range c) as Hc.
  rewrite !hex_char_xdigit, IH; [reflexivity | |].
  - apply Z.mod_pos_bound. lia.
  - split; [apply Z.div_pos; lia | apply Z.div_lt_upper_bound; lia].
Qed.

Lemma length_TextToHex (text : string) :
  String.length (TextToHex text) = (2 * String.length text)%nat.
Proof.
  induction text as [| c r IH]; [reflexivity |].
  cbn [TextToHex]. unfold printf_02x. cbn [append String.length]. lia.
Qed.

(** X3. [TextToHex] writes two characters for every character of the
    text, and its result is a valid message for [IsValidHexMessage] exactly
    when the text is not empty. *)
Theorem TextToHex_valid (text : string) :
  String.length (TextToHex text) = (2 * String.length text)%nat
  /\ (IsValidHexMessage (TextToHex text) = true <-> text <> EmptyString).
Proof.
  split; [apply length_TextToHex |].
  rewrite IsValidHexMessage_true. split.
  - intros (Hne & _) ->. now apply Hne.
  - intros Hne. repeat split.
    + destruct text; [congruence |]. cbn [TextToHex]. unfold printf_02x.
      cbn [append]. discriminate.
    + rewrite length_TextToHex. now exists (String.length text).
    + apply all_xdigit_TextToHex.
Qed.

Lemma append_nil_r (s : string) : (s ++ EmptyString)%string = s.
Proof. induction s; simpl; congruence. Qed.

Lemma append_assoc (a b c : string) : ((a ++ b) ++ c)%string = (a ++ (b ++ c))%string.
Proof. induction a; simpl; congruence. Qed.

Lemma length_append (a b : string) :
  String.length (a ++ b) = (String.length a + String.length b)%nat.
Proof. induction a; simpl; congruence. Qed.

Lemma stoi16_two_xdigits_value (c1 c2 : ascii) (d1 d2 : Z) :
  hex_digit_value c1 = Some d1 -> hex_digit_value c2 = Some d2 ->
  stoi16 (String c1 (String c2 EmptyString)) = Some (16 * d1 + d2).
Proof.
  intros H1 H2.
  pose proof (hex_digit_value_range _ _ H2) as Hd.
  destruct c1 as [[] [] [] [] [] [] [] []]; vm_compute in H1; try discriminate H1;
    injection H1 as <-;
    unfold stoi16, strtol16; cbn -[Z.add Z.mul]; rewrite H2;
    match goal with
    | |- context [(?a <=? ?v) && (?v <=? ?b)] =>
        replace ((a <=? v) && (v <=? b)) with true
          by (symmetry; apply andb_true_iff; split; apply Z.leb_le;
              unfold CInt.int_min, CInt.int_max; lia)
    end; f_equal; lia.
Qed.

Lemma hex_char_lower (c : ascii) (d : Z) :
  hex_digit_value c = Some d -> hex_char d = lower c.
Proof.
  intros H.
  destruct c as [[] [] [] [] [] [] [] []]; vm_compute in H; try discriminate H;
    injection H as <-; reflexivity.
Qed.

Lemma printf_02x_char_of_int (d1 d2 : Z) :
  0 <= d1 < 16 -> 0 <= d2 < 16 ->
  printf_02x (code (char_of_int (16 * d1 + d2)))
  = String (hex_char d1) (String (hex_char d2) EmptyString).
Proof.
  intros H1 H2.
  assert (Hc : code (char_of_int (16 * d1 + d2)) = 16 * d1 + d2).
  { apply Z.eqb_eq.
    apply (byte_cases (fun v => code (char_of_int v) =? v));
      [vm_compute; reflexivity | lia]. }
  rewrite Hc. unfold printf_02x.
  replace ((16 * d1 + d2) / 16) with d1
    by (apply Z.div_unique with d2; lia).
  replace ((16 * d1 + d2) mod 16) with d2
    by (apply Z.mod_unique with d1; lia).
  reflexivity.
Qed.

Lemma HexToText_loop_valid (hex : string) :
  all_xdigit hex = true -> Nat.Even (String.length hex) ->
  exists text,
    (forall acc, HexToText_loop hex acc = (acc ++ text)%string)
    /\ TextToHex text = lower_string hex
    /\ String.length text = (String.length hex / 2)%nat.
Proof.
  induction hex as [| c | c1 c2 r IH] using string_pair_ind; intros Hx He.
  - exists EmptyString. repeat split. intros acc. cbn. now rewrite append_nil_r.
  - exfalso. destruct He as [k Hk]. simpl in Hk. lia.
  - cbn [all_xdigit] in Hx. unfold isxdigit in Hx.
    destruct (hex_digit_value c1) as [d1 |] eqn:E1; [| discriminate].
    destruct (hex_digit_value c2) as [d2 |] eqn:E2; [| discriminate].
    destruct IH as (t & Hloop & Hhex & Hlen); [exact Hx | |].
    { destruct He as [k Hk]. cbn [String.length] in Hk. exists (k - 1)%nat. lia. }
    exists (String (char_of_int (16 * d1 + d2)) t). split; [| split].
    + intros acc. cbn [HexToText_loop].
      rewrite (stoi16_two_xdigits_value _ _ _ _ E1 E2), Hloop, append_assoc.
      reflexivity.
    + cbn [TextToHex lower_string].
      rewrite printf_02x_char_of_int
        by (eapply hex_digit_value_range; eassumption).
      cbn [append]. rewrite Hhex.
      now rewrite (hex_char_lower _ _ E1), (hex_char_lower _ _ E2).
    + cbn [String.length]. rewrite Hlen.
      change (S (S (String.length r))) with (1 * 2 + String.length r)%nat.
      rewrite Nat.div_add_l by lia. lia.
Qed.

(** X4. For a valid message [HexToText] returns one character per pair of
    digits, and converting that text back with [TextToHex] gives the message
    in lower case. *)
Theorem TextToHex_HexToText (hex : string) :
  IsValidHexMessage hex = true ->
  TextToHex (HexToText hex) = lower_string hex
  /\ String.length (HexToText hex) = (String.length hex / 2)%nat.
Proof.
  rewrite IsValidHexMessage_true. intros (_ & He & Hx).
  destruct (HexToText_loop_valid hex Hx He) as (t & Hloop & Hhex & Hlen).
  unfold HexToText. rewrite Hloop. cbn [append]. auto.
Qed.

Lemma HexToText_loop_all_or_nothing (hex : string) :
  forall acc,
    HexToText_loop hex acc = EmptyString
    \/ exists text, HexToText_loop hex acc = (acc ++ text)%string
                    /\ String.length text = (String.length hex / 2)%nat.
Proof.
  induction hex as [| c | c1 c2 r IH] using string_pair_ind; intros acc.
  - right. exists EmptyString. cbn. now rewrite append_nil_r.
  - right. exists EmptyString. cbn. now rewrite append_nil_r.
  - cbn [HexToText_loop]. destruct (stoi16 _) as [v |]; [| now left].
    destruct (IH (acc ++ String (char_of_int v) EmptyString)%string)
      as [H | (t & Ht & Hlen)]; [now left |].
    right. exists (String (char_of_int v) t). split.
    + rewrite Ht, append_assoc. reflexivity.
    + cbn [String.length]. rewrite Hlen.
      change (S (S (String.length r))) with (1 * 2 + String.length r)%nat.
      rewrite Nat.div_add_l by lia. lia.
Qed.

(** X5. [HexToText] returns either the empty string or one character for
    every pair of characters of its argument: never a partial text. *)
Theorem HexToText_all_or_nothing (hex : string) :
  HexToText hex = EmptyString
  \/ String.length (HexToText hex) = (String.length hex / 2)%nat.
Proof.
  unfold HexToText.
  destruct (HexToText_loop_all_or_nothing hex EmptyString) as [H | (t & Ht & Hlen)];
    [now left | right]. rewrite Ht. exact Hlen.
Qed.

Lemma HexToText_loop_odd_tail (hex : string) (c : ascii) :
  Nat.Even (String.length hex) ->
  forall acc,
    HexToText_loop (hex ++ String c EmptyString) acc = HexToText_loop hex acc.
Proof.
  induction hex as [| c0 | c1 c2 r IH] using string_pair_ind; intros He acc.
  - reflexivity.
  - exfalso. destruct He as [k Hk]. simpl in Hk. lia.
  - cbn [append HexToText_loop]. destruct (stoi16 _); [| reflexivity].
    apply IH. destruct He as [k Hk]. cbn [String.length] in Hk.
    exists (k - 1)%nat. lia.
Qed.

(** X6. [HexToText] ignores a trailing unpaired character. *)
Theorem HexToText_odd_tail (hex : string) (c : ascii) :
  Nat.Even (String.length hex) ->
  HexToText (hex ++ String c EmptyString) = HexToText hex.
Proof.
  intros He. unfold HexToText. now apply HexToText_loop_odd_tail.
Qed.

Lemma hex_to_bits_loop_agrees (hex : string) :
  forall bits,
    parse_payload_loop hex bits = []
    \/ SimpleWasm.hex_to_bits_loop hex bits = parse_payload_loop hex bits.
Proof.
  induction hex as [| c | c1 c2 r IH] using string_pair_ind; intros bits.
  - now right.
  - now left.
  - cbn [parse_payload_loop SimpleWasm.hex_to_bits_loop].
    destruct (stoi16 _); [apply IH | now left].
Qed.

(** X7. Whenever [parse_payload] succeeds, [hex_to_bits] of the simplified
    build returns the same bits. *)
Theorem hex_to_bits_agrees (hex : string) :
  parse_payload hex <> [] -> SimpleWasm.hex_to_bits hex = parse_payload hex.
Proof.
  intros Hne. destruct hex as [| c r]; [now contradiction Hne |].
  unfold parse_payload in *. unfold SimpleWasm.hex_to_bits.
  destruct (hex_to_bits_loop_agrees (String c r) []) as [H | H]; [contradiction | exact H].
Qed.

End CodecExtras.

Lemma TextToHex_HexToText_witness :
  Utils.IsValidHexMessage "4A6f" = true
  /\ (Utils.TextToHex (Utils.HexToText "4A6f") = lower_string "4A6f"
      /\ String.length (Utils.HexToText "4A6f") = (String.length "4A6f" / 2)%nat).
Proof.
  assert (H : Utils.IsValidHexMessage "4A6f" = true) by reflexivity.
  split; [exact H | exact (TextToHex_HexToText "4A6f" H)].
Defined.

Lemma HexToText_odd_tail_witness :
  Nat.Even (String.length "4865")
  /\ Utils.HexToText ("4865" ++ String "6" EmptyString) = Utils.HexToText "4865".
Proof.
  assert (H : Nat.Even (String.length "4865")) by (exists 2%nat; reflexivity).
  split; [exact H | exact (HexToText_odd_tail "4865" "6" H)].
Defined.

Lemma hex_to_bits_agrees_witness :
  Utils.parse_payload "4865" <> []
  /\ SimpleWasm.hex_to_bits "4865" = Utils.parse_payload "4865".
Proof.
  assert (H : Utils.parse_payload "4865" <> []) by (vm_compute; discriminate).
  split; [exact H | exact (hex_to_bits_agrees "4865" H)].
Defined.

(* ------------------------------------------------------------------ *)
(** ** FrameBuffer and the block loop *)

Section FrameBufferExtras.
Import FrameBuffer.
Context {A : Type}.

(** X8. When [has_frame] holds, [pop_frame] returns the
    [frame_size * channels] samples at the front of the buffer, in order, and
    the buffer keeps the rest: nothing is lost or reordered. *)
Theorem pop_frame_sufficient (fb : t A) (frame_size : Z) :
  has_frame fb frame_size = true ->
  let '(frame, fb') := pop_frame fb frame_size in
  frame ++ buffer fb' = buffer fb
  /\ Z.of_nat (List.length frame) = CInt.size_mul frame_size (channels fb)
  /\ channels fb' = channels fb
  /\ size fb' = size fb - CInt.size_mul frame_size (channels fb).
Proof.
  unfold has_frame, pop_frame, samples_needed, size. intros H.
  apply Z.leb_le in H.
  pose proof (size_mul_range frame_size (channels fb)) as Hr.
  replace (Z.of_nat (List.length (buffer fb)) <? CInt.size_mul frame_size (channels fb))
    with false by (symmetry; apply Z.ltb_ge; lia).
  cbn [buffer channels]. rewrite length_firstn, length_skipn.
  repeat split; [apply firstn_skipn | lia | lia].
Qed.

(** The size of the frame [pop_frame] returns when [has_frame] holds. *)
Lemma pop_frame_shape (fb : t A) (frame_size : Z) :
  has_frame fb frame_size = true ->
  Z.of_nat (List.length (fst (pop_frame fb frame_size)))
  = CInt.size_mul frame_size (channels fb)
  /\ channels (snd (pop_frame fb frame_size)) = channels fb.
Proof.
  unfold has_frame, pop_frame, samples_needed, size. intros H.
  apply Z.leb_le in H.
  pose proof (size_mul_range frame_size (channels fb)) as Hr.
  replace (Z.of_nat (List.length (buffer fb)) <? CInt.size_mul frame_size (channels fb))
    with false by (symmetry; apply Z.ltb_ge; lia).
  cbn [fst snd buffer channels]. rewrite length_firstn. split; [lia | reflexivity].
Qed.

(** With frames of no sample the loop never ends. *)
Lemma while_has_frame_zero {S : Type} (body : list A -> S -> S) (n : Z) (fuel : nat) :
  forall (fb : t A) (s : S),
    CInt.size_mul n (channels fb) = 0 ->
    while_has_frame body n fuel fb s = None.
Proof.
  induction fuel as [| fuel IH]; intros fb s H0; cbn [while_has_frame];
    unfold has_frame, samples_needed, size; rewrite H0;
    replace (0 <=? Z.of_nat (List.length (buffer fb))) with true
      by (symmetry; apply Z.leb_le; lia).
  - reflexivity.
  - unfold pop_frame, samples_needed, size. rewrite H0.
    replace (Z.of_nat (List.length (buffer fb)) <? 0) with false
      by (symmetry; apply Z.ltb_ge; lia).
    apply IH. exact H0.
Qed.

(** Whatever the body keeps, the loop keeps; the channel count is never
    changed. *)
Lemma while_has_frame_invariant {S : Type} (P : S -> Prop) (body : list A -> S -> S)
    (n : Z) :
  (forall frame s, P s -> P (body frame s)) ->
  forall fuel (fb fb' : t A) (s s' : S),
    P s -> while_has_frame body n fuel fb s = Some (fb', s') ->
    P s' /\ channels fb' = channels fb.
Proof.
  intros Hbody. induction fuel as [| fuel IH]; intros fb fb' s s' Hs;
    cbn [while_has_frame]; destruct (has_frame fb n);
    try discriminate; try (intros [= <- <-]; auto).
  destruct (pop_frame fb n) as [frame fb1] eqn:Hpop. intros Hrun.
  destruct (IH fb1 fb' (body frame s) s' (Hbody _ _ Hs) Hrun) as [H1 H2].
  split; [exact H1 |]. rewrite H2.
  unfold pop_frame in Hpop. destruct (_ <? _); injection Hpop as _ <-; reflexivity.
Qed.

Lemma chopped_count (bs : Z) (l : list A) (frames : list (list A)) (rest : list A) :
  0 < bs -> chopped bs l frames rest ->
  Z.of_nat (List.length frames) = Z.of_nat (List.length l) / bs
  /\ Z.of_nat (List.length rest) = Z.of_nat (List.length l) mod bs.
Proof.
  intros Hbs (Hcat & Hrest & Hall).
  assert (Hlen : Z.of_nat (List.length l)
                 = bs * Z.of_nat (List.length frames) + Z.of_nat (List.length rest)).
  { rewrite <- Hcat, length_app, Nat2Z.inj_add. f_equal.
    clear Hcat. induction Hall as [| f fs Hf Hall IH]; cbn [concat List.length].
    - lia.
    - rewrite length_app, Nat2Z.inj_add, IH, Hf. lia. }
  split.
  - apply Z.div_unique with (Z.of_nat (List.length rest)); lia.
  - apply Z.mod_unique with (Z.of_nat (List.length frames)); lia.
Qed.

(** X9. The block loop of [process_frame].  With frames of no sample
    ([frame_size * channels] zero) it never ends.  Otherwise it hands the
    body the whole frames of the buffer in order, [size / samples_needed] of
    them, and leaves the [size mod samples_needed] samples that follow,
    fewer than a frame. *)
Theorem process_frames_result {S : Type} (body : list A -> S -> S) (n : Z)
    (fb : t A) (s : S) :
  (CInt.size_mul n (channels fb) = 0 -> process_frames body n fb s = None)
  /\ (0 < CInt.size_mul n (channels fb) ->
      exists frames rest,
        process_frames body n fb s
        = Some (mk rest (channels fb),
                fold_left (fun s' frame => body frame s') frames s)
        /\ concat frames ++ rest = buffer fb
        /\ Forall (fun f => Z.of_nat (List.length f) = CInt.size_mul n (channels fb)) frames
        /\ Z.of_nat (List.length frames) = size fb / CInt.size_mul n (channels fb)
        /\ Z.of_nat (List.length rest) = size fb mod CInt.size_mul n (channels fb)
        /\ has_frame (mk rest (channels fb)) n = false).
Proof.
  split.
  - intros H0. unfold process_frames. now apply while_has_frame_zero.
  - intros Hbs. unfold process_frames. destruct fb as [l ch]. cbn [buffer channels] in *.
    destruct (while_has_frame_fold body n ch Hbs (List.length l) l s (le_n _))
      as (frames & rest & Hrun & Hc).
    destruct (chopped_count _ _ _ _ Hbs Hc) as [Hn Hr].
    destruct Hc as (Hcat & Hrest & Hall).
    exists frames, rest. unfold size, has_frame, samples_needed. cbn [buffer channels].
    repeat split; auto. apply Z.leb_gt. exact Hrest.
Qed.

End FrameBufferExtras.

Lemma pop_frame_sufficient_witness :
  FrameBuffer.has_frame (FrameBuffer.mk [1; 2; 3; 4; 5] 2) 2 = true
  /\ (let '(frame, fb') := FrameBuffer.pop_frame (FrameBuffer.mk [1; 2; 3; 4; 5] 2) 2 in
      frame ++ FrameBuffer.buffer fb' = FrameBuffer.buffer (FrameBuffer.mk [1; 2; 3; 4; 5] 2)
      /\ Z.of_nat (List.length frame)
         = CInt.size_mul 2 (FrameBuffer.channels (FrameBuffer.mk [1; 2; 3; 4; 5] 2))
      /\ FrameBuffer.channels fb' = FrameBuffer.channels (FrameBuffer.mk [1; 2; 3; 4; 5] 2)
      /\ FrameBuffer.size fb'
         = FrameBuffer.size (FrameBuffer.mk [1; 2; 3; 4; 5] 2)
           - CInt.size_mul 2 (FrameBuffer.channels (FrameBuffer.mk [1; 2; 3; 4; 5] 2))).
Proof.
  assert (H : FrameBuffer.has_frame (FrameBuffer.mk [1; 2; 3; 4; 5] 2) 2 = true)
    by reflexivity.
  split; [exact H | exact (pop_frame_sufficient (FrameBuffer.mk [1; 2; 3; 4; 5] 2) 2 H)].
Defined.

(* ------------------------------------------------------------------ *)
(** ** Limiter *)

Section LimiterExtras.
Import Num Limiter.

Lemma skipn_cons_get (l : list Q) (k : nat) :
  (k < List.length l)%nat -> skipn k l = get l k :: skipn (S k) l.
Proof.
  unfold get. revert k; induction l as [| x l IH]; intros [| k] H; simpl in *;
    try lia; auto. apply IH. lia.
Qed.

(** The output loop, for any property [I] the smoothed maximum keeps and any
    relation [R] it yields between an emitted sample and its input. *)
Lemma emit_fold_rel (I : Q -> Prop) (R : Q -> Q -> Prop) (d : Q) (buf mb : list Q) :
  (forall m i, (i < List.length buf)%nat -> I m ->
     let m1 := (m * d + get mb i * (1 - d))%Q in
     let m2 := if Qltb m1 (get mb i) then get mb i else m1 in
     I m2 /\ R (get buf i / m2)%Q (get buf i)) ->
  forall n k maximum out,
    (k + n <= List.length buf)%nat -> I maximum ->
    exists maximum' outs,
      fold_left (emit d buf mb) (seq k n) (maximum, out) = (maximum', out ++ outs)
      /\ I maximum'
      /\ Forall2 R outs (firstn n (skipn k buf)).
Proof.
  intros Hstep. induction n as [| n IH]; intros k maximum out Hk HI.
  - exists maximum, []. cbn. rewrite app_nil_r. auto.
  - cbn [seq fold_left]. unfold emit at 2.
    destruct (Hstep maximum k ltac:(lia) HI) as [HI2 HR]. cbv zeta in HI2, HR.
    set (m2 := if Qltb _ _ then _ else _) in *.
    destruct (IH (S k) m2 (out ++ [(get buf k / m2)%Q]) ltac:(lia) HI2)
      as (m' & outs & Hfold & HI' & HF).
    exists m', ((get buf k / m2)%Q :: outs). split; [| split; [exact HI' |]].
    + rewrite Hfold, <- app_assoc. reflexivity.
    + rewrite (skipn_cons_get buf k) by lia. cbn [firstn]. constructor; auto.
Qed.

Lemma serves_from_weaken (l : t) : serves_from 0 l -> serves_from 1 l.
Proof.
  intros (H1 & H2 & H3 & H4). split; [| split; [| split]]; auto.
  intros i Hi. destruct (H4 i Hi) as [A B]. split; [exact A | intros _; apply B; lia].
Qed.

Lemma process_attenuates (l l' : t) (samples out : list Q) :
  serves_from 1 l -> process l samples = (out, l') ->
  serves_from 1 l'
  /\ exists emitted,
       Forall2 attenuated out emitted
       /\ emitted ++ buffer l' = buffer l ++ samples.
Proof.
  intros Hs Hp. split.
  - destruct (process_serves 1 l l' samples out Hs (or_introl eq_refl) Hp)
      as [(_ & H & _) | (H & _)]; [exact H | now apply serves_from_weaken].
  - pose proof (ramps_serve 1 l samples Hs (or_introl eq_refl)) as Hr. cbv zeta in Hr.
    destruct Hs as (Hla & Hlen & Hsettled & Hserve).
    unfold process in Hp.
    set (buf := buffer l ++ samples) in *.
    set (mb := ramps _ _ _) in *.
    destruct Hr as [Hmb Hcov].
    destruct (look_ahead l <? Z.of_nat (List.length buf)) eqn:E.
    + apply Z.ltb_lt in E. set (todo := Z.to_nat _) in *.
      destruct (emit_fold_rel (fun _ => True) attenuated (decay_coeff l) buf mb)
        with (n := todo) (k := 0%nat) (maximum := maximum l) (out := @nil Q)
        as (m' & outs & Hfold & _ & HF); auto.
      { intros m i Hi _. cbv zeta. split; [exact I |].
        eexists. split; [| reflexivity].
        destruct (Hcov i Hi) as [H1 _].
        destruct (Qltb _ (get mb i)) eqn:Em; [exact H1 |].
        apply Qltb_ge in Em. apply Qnot_lt_le in Em.
        eapply Qle_trans; [exact H1 | exact Em]. }
      { unfold todo. lia. }
      rewrite Hfold in Hp. cbn [app] in Hp. injection Hp as <- <-.
      exists (firstn todo buf). split; [exact HF |].
      cbn [buffer]. apply firstn_skipn.
    + injection Hp as <- <-. exists []. split; [constructor | reflexivity].
Qed.

Lemma process_all_attenuates (chunks : list (list Q)) :
  forall l, serves_from 1 l ->
  exists emitted,
    Forall2 attenuated (concat (fst (process_all l chunks))) emitted
    /\ emitted ++ buffer (snd (process_all l chunks)) = buffer l ++ concat chunks.
Proof.
  induction chunks as [| c cs IH]; intros l Hs; cbn [process_all].
  - exists []. cbn. rewrite app_nil_r. split; [constructor | reflexivity].
  - destruct (process l c) as [out l'] eqn:Hp.
    destruct (process_attenuates l l' c out Hs Hp) as (Hs' & e1 & HF1 & He1).
    destruct (IH l' Hs') as (e2 & HF2 & He2).
    destruct (process_all l' cs) as [outs l'']. cbn [fst snd concat] in *.
    exists (e1 ++ e2). split.
    + now apply Forall2_app.
    + rewrite <- app_assoc, He2, app_assoc, He1, <- app_assoc. reflexivity.
Qed.

Lemma attenuated_abs (o x : Q) : attenuated o x -> (Qabs o <= Qabs x)%Q.
Proof.
  intros (g & Hg & ->).
  assert (Hpos : (0 < g)%Q) by (eapply Qlt_le_trans; [| exact Hg]; reflexivity).
  unfold Qdiv. rewrite Qabs_Qmult, Qabs_Qinv, (Qabs_pos g) by now apply Qlt_le_weak.
  apply Qle_shift_div_r; [exact Hpos |].
  rewrite (Qmult_comm (Qabs x) g).
  setoid_replace (Qabs x) with (1 * Qabs x)%Q at 1 by ring.
  apply Qmult_le_compat_r; [exact Hg | apply Qabs_nonneg].
Qed.

Lemma get_abs_le (buf : list Q) (i : nat) :
  Forall (fun x => Qabs x <= 1)%Q buf -> (Qabs (get buf i) <= 1)%Q.
Proof.
  intros H. unfold get. destruct (nth_in_or_default i buf 0%Q) as [Hin | ->].
  - rewrite Forall_forall in H. now apply H.
  - discriminate.
Qed.

Lemma ramps_quiet (la : Z) (buf mb : list Q) :
  Forall (fun x => Qabs x <= 1)%Q buf -> ramps la buf mb = mb.
Proof.
  intros H. unfold ramps.
  apply (fold_left_preserves (fun m => m = mb)); [| reflexivity].
  intros m i ->. unfold ramp.
  replace (Qltb 1 (fabs (get buf i))) with false; [reflexivity |].
  symmetry. apply Qltb_ge. apply Qle_not_lt. now apply get_abs_le.
Qed.

Lemma skipn_repeat_one (k n : nat) : skipn k (repeat 1%Q n) = repeat 1%Q (n - k).
Proof.
  revert n; induction k as [| k IH]; intros [| n]; cbn; auto.
Qed.

Lemma Forall_skipn_abs (k : nat) (buf : list Q) :
  Forall (fun x => Qabs x <= 1)%Q buf -> Forall (fun x => Qabs x <= 1)%Q (skipn k buf).
Proof.
  intros H. rewrite <- (firstn_skipn k buf) in H. apply Forall_app in H. tauto.
Qed.

Lemma process_quiet (l l' : t) (samples out : list Q) :
  quiet l -> Forall (fun x => Qabs x <= 1)%Q samples ->
  process l samples = (out, l') ->
  quiet l'
  /\ look_ahead l' = look_ahead l
  /\ exists emitted,
       Forall2 Qeq out emitted
       /\ emitted ++ buffer l' = buffer l ++ samples.
Proof.
  intros (Hmb & Hmax & Hbuf & Hla) Hsamples Hp. unfold process in Hp.
  set (buf := buffer l ++ samples) in *.
  assert (Hall : Forall (fun x => Qabs x <= 1)%Q buf)
    by (apply Forall_app; split; assumption).
  rewrite (ramps_quiet _ _ _ Hall), Hmb, <- repeat_app, <- length_app in Hp.
  fold buf in Hp.
  destruct (look_ahead l <? Z.of_nat (List.length buf)) eqn:E.
  - apply Z.ltb_lt in E. set (todo := Z.to_nat _) in *.
    destruct (emit_fold_rel (fun m => m == 1)%Q Qeq (decay_coeff l) buf
                (repeat 1%Q (List.length buf)))
      with (n := todo) (k := 0%nat) (maximum := maximum l) (out := @nil Q)
      as (m' & outs & Hfold & Hm' & HF); auto.
    { intros m i Hi Hm. cbv zeta.
      assert (Hg : get (repeat 1%Q (List.length buf)) i = 1%Q)
        by (unfold get; now rewrite nth_repeat_lt).
      rewrite Hg.
      assert (H1 : (m * decay_coeff l + 1 * (1 - decay_coeff l) == 1)%Q)
        by (rewrite Hm; ring).
      assert (H2 : ((if Qltb (m * decay_coeff l + 1 * (1 - decay_coeff l)) 1
                     then 1 else m * decay_coeff l + 1 * (1 - decay_coeff l)) == 1)%Q)
        by (destruct (Qltb _ _); [reflexivity | exact H1]).
      split; [exact H2 |]. rewrite H2. unfold Qdiv. change (/ 1)%Q with 1%Q. ring. }
    { unfold todo. lia. }
    rewrite Hfold in Hp. cbn [app] in Hp. injection Hp as <- <-.
    split; [| split; [reflexivity |]].
    + unfold quiet. cbn [max_buffer buffer maximum look_ahead].
      rewrite skipn_repeat_one, length_skipn.
      repeat split; auto.
      * now apply Forall_skipn_abs.
      * unfold todo. lia.
    + exists (firstn todo buf). split; [exact HF | apply firstn_skipn].
  - apply Z.ltb_ge in E. injection Hp as <- <-.
    split; [| split; [reflexivity |]].
    + unfold quiet. cbn [max_buffer buffer maximum look_ahead]. auto.
    + exists []. split; [constructor | reflexivity].
Qed.

Lemma process_all_quiet (chunks : list (list Q)) :
  forall l, quiet l -> Forall (fun x => Qabs x <= 1)%Q (concat chunks) ->
  exists emitted,
    Forall2 Qeq (concat (fst (process_all l chunks))) emitted
    /\ emitted ++ buffer (snd (process_all l chunks)) = buffer l ++ concat chunks.
Proof.
  induction chunks as [| c cs IH]; intros l Hq Hall; cbn [process_all].
  - exists []. cbn. rewrite app_nil_r. split; [constructor | reflexivity].
  - cbn [concat] in Hall. apply Forall_app in Hall as [Hc Hcs].
    destruct (process l c) as [out l'] eqn:Hp.
    destruct (process_quiet l l' c out Hq Hc Hp) as (Hq' & _ & e1 & HF1 & He1).
    destruct (IH l' Hq' Hcs) as (e2 & HF2 & He2).
    destruct (process_all l' cs) as [outs l'']. cbn [fst snd concat] in *.
    exists (e1 ++ e2). split.
    + now apply Forall2_app.
    + rewrite <- app_assoc, He2, app_assoc, He1, <- app_assoc. reflexivity.
Qed.

End LimiterExtras.

(** X11. The limiter only attenuates and keeps the order: the samples
    emitted so far are the first input samples, each divided by a gain of at
    least 1, and the history holds the input samples that follow them. *)
Theorem limiter_attenuates_in_order (decay : Z -> Q) (sample_rate : Z) (l : Limiter.t)
    (chunks : list (list Q)) :
  Limiter.make decay sample_rate = Some l ->
  exists emitted,
    Forall2 (fun o x => attenuated o x /\ (Qabs o <= Qabs x)%Q)
      (concat (fst (Limiter.process_all l chunks))) emitted
    /\ emitted ++ Limiter.buffer (snd (Limiter.process_all l chunks)) = concat chunks.
Proof.
  intros Hmake. apply make_settled in Hmake as ((Hlen & Hla) & Hb & H1).
  destruct (process_all_attenuates chunks l) as (e & HF & He).
  { unfold serves_from. rewrite Hb in *. repeat split; auto; simpl in *; lia. }
  exists e. rewrite Hb in He. split; [| exact He].
  eapply Forall2_impl; [| exact HF].
  intros o x H. split; [exact H | now apply attenuated_abs].
Qed.

(** X12. A signal that never exceeds 1 in magnitude passes the limiter
    unchanged, [look_ahead] samples late: the samples emitted are equal (as
    rationals) to the first input samples, and the history holds the
    rest. *)
Theorem limiter_transparent (decay : Z -> Q) (sample_rate : Z) (l : Limiter.t)
    (chunks : list (list Q)) :
  Limiter.make decay sample_rate = Some l ->
  Forall (fun x => Qabs x <= 1)%Q (concat chunks) ->
  exists emitted,
    Forall2 Qeq (concat (fst (Limiter.process_all l chunks))) emitted
    /\ emitted ++ Limiter.buffer (snd (Limiter.process_all l chunks)) = concat chunks.
Proof.
  intros Hmake Hall.
  assert (Hq : quiet l).
  { unfold Limiter.make in Hmake. destruct (_ <? 1) eqn:E; [discriminate |].
    apply Z.ltb_ge in E. injection Hmake as <-. unfold quiet. cbn.
    repeat split; auto; try reflexivity. lia. }
  apply make_settled in Hmake as (_ & Hb & _).
  destruct (process_all_quiet chunks l Hq Hall) as (e & HF & He).
  exists e. rewrite Hb in He. auto.
Qed.

Lemma limiter_bounds_all_but_first_witness :
  Limiter.make (fun _ => 1 # 2)%Q 400 = Some (Limiter.mk 2 (1 # 2) 1 [] [])
  /\ Forall bounded
       (tl (concat (fst (Limiter.process_all (Limiter.mk 2 (1 # 2) 1 [] [])
                           [[3; 0]; [0; 5; 0]; [1 # 2; 1 # 2]]%Q)))).
Proof.
  assert (H : Limiter.make (fun _ => 1 # 2)%Q 400
              = Some (Limiter.mk 2 (1 # 2) 1 [] [])) by reflexivity.
  split; [exact H |].
  exact (limiter_bounds_all_but_first (fun _ => 1 # 2)%Q 400 _
           [[3; 0]; [0; 5; 0]; [1 # 2; 1 # 2]]%Q H).
Defined.

Lemma limiter_attenuates_in_order_witness :
  Limiter.make (fun _ => 1 # 2)%Q 400 = Some (Limiter.mk 2 (1 # 2) 1 [] [])
  /\ exists emitted,
       Forall2 (fun o x => attenuated o x /\ (Qabs o <= Qabs x)%Q)
         (concat (fst (Limiter.process_all (Limiter.mk 2 (1 # 2) 1 [] [])
                         [[3; 0]; [0; 5; 0]; [1 # 2; 1 # 2]]%Q))) emitted
       /\ emitted
          ++ Limiter.buffer (snd (Limiter.process_all (Limiter.mk 2 (1 # 2) 1 [] [])
                                    [[3; 0]; [0; 5; 0]; [1 # 2; 1 # 2]]%Q))
          = concat [[3; 0]; [0; 5; 0]; [1 # 2; 1 # 2]]%Q.
Proof.
  assert (H : Limiter.make (fun _ => 1 # 2)%Q 400
              = Some (Limiter.mk 2 (1 # 2) 1 [] [])) by reflexivity.
  split; [exact H |].
  exact (limiter_attenuates_in_order (fun _ => 1 # 2)%Q 400 _
           [[3; 0]; [0; 5; 0]; [1 # 2; 1 # 2]]%Q H).
Defined.

Lemma limiter_transparent_witness :
  Limiter.make (fun _ => 1 # 2)%Q 400 = Some (Limiter.mk 2 (1 # 2) 1 [] [])
  /\ Forall (fun x => Qabs x <= 1)%Q (concat [[1; 0]; [- (1 # 2); 1 # 4; 0]]%Q)
  /\ exists emitted,
       Forall2 Qeq
         (concat (fst (Limiter.process_all (Limiter.mk 2 (1 # 2) 1 [] [])
                         [[1; 0]; [- (1 # 2); 1 # 4; 0]]%Q))) emitted
       /\ emitted
          ++ Limiter.buffer (snd (Limiter.process_all (Limiter.mk 2 (1 # 2) 1 [] [])
                                    [[1; 0]; [- (1 # 2); 1 # 4; 0]]%Q))
          = concat [[1; 0]; [- (1 # 2); 1 # 4; 0]]%Q.
Proof.
  assert (H : Limiter.make (fun _ => 1 # 2)%Q 400
              = Some (Limiter.mk 2 (1 # 2) 1 [] [])) by reflexivity.
  assert (Hall : Forall (fun x => Qabs x <= 1)%Q
                   (concat [[1; 0]; [- (1 # 2); 1 # 4; 0]]%Q))
    by (repeat constructor; vm_compute; discriminate).
  split; [exact H | split; [exact Hall |]].
  exact (limiter_transparent (fun _ => 1 # 2)%Q 400 _
           [[1; 0]; [- (1 # 2); 1 # 4; 0]]%Q H Hall).
Defined.

(* ------------------------------------------------------------------ *)
(** ** The carrier *)

Section GenExtras.
Import Num SimpleWatermarkGen.

Variable M_PI : Q.
Variable sin : Q -> Q.
Variable frames_per_bit : Z.





End GenExtras.


(* ------------------------------------------------------------------ *)
(** ** The embedder through its interface *)


Section PayloadFacts.
Import Utils.

Lemma parse_payload_valid (hex : string) :
  IsValidHexMessage hex = true -> ~ parse_payload_fails hex.
Proof.
  rewrite IsValidHexMessage_true. intros (Hne & He & Hx) Hfail.
  destruct hex as [| c r]; [congruence |].
  unfold parse_payload_fails, parse_payload in Hfail.
  pose proof (parse_payload_loop_length (String c r) Hx He []) as L.
  rewrite Hfail in L. cbn in L. lia.
Qed.

Lemma parse_payload_empty_or_odd (hex : string) :
  hex = EmptyString \/ Nat.Odd (String.length hex) -> parse_payload_fails hex.
Proof.
  unfold parse_payload_fails. intros [-> | Ho]; [reflexivity |].
  destruct hex as [| c r]; [reflexivity |].
  unfold parse_payload. now apply parse_payload_loop_odd.
Qed.

End PayloadFacts.

Section WatermarkerExtras.
Import RealtimeWatermarker WatermarkerRuns Calls WatermarkerTally.

Variable LimiterT : Type.
Variable limiter_make : Z -> Z -> LimiterT.
Variable limiter_process : LimiterT -> list Q -> list Q * LimiterT.
Variable M_PI : Q.
Variable sin : Q -> Q.
Variable frames_per_bit : Z.

Local Notation "'PF'" := (ProcessFrame limiter_process M_PI sin frames_per_bit).
Local Notation "'Make'" := (make LimiterT limiter_make).
Local Notation "'Reach'" := (Reachable limiter_make limiter_process M_PI sin frames_per_bit).
Local Notation "'Block'" :=
  (process_block LimiterT limiter_process M_PI sin frames_per_bit).

(** X14. The constructor leaves the embedder initialised exactly when
    [parse_payload] finds at least one bit in the message ([limiter_make]
    standing for a limiter constructor that returns): every message
    [IsValidHexMessage] accepts gives an initialised embedder, an empty or
    odd-length message gives one that is not. *)
Theorem make_initialized (cfg : Config) (message_hex : string) :
  (IsInitialized (Make cfg message_hex) = true <-> ~ Utils.parse_payload_fails message_hex)
  /\ (Utils.IsValidHexMessage message_hex = true ->
      IsInitialized (Make cfg message_hex) = true)
  /\ (message_hex = EmptyString \/ Nat.Odd (String.length message_hex) ->
      IsInitialized (Make cfg message_hex) = false).
Proof.
  assert (H : IsInitialized (Make cfg message_hex) = true
              <-> ~ Utils.parse_payload_fails message_hex).
  { unfold IsInitialized, make, Impl_make, Utils.parse_payload_fails. cbn [pImpl].
    destruct (Utils.parse_payload message_hex); cbn [initialized].
    - split; [discriminate | intros E; now contradiction E].
    - split; [discriminate | reflexivity]. }
  split; [exact H |]. split.
  - intros Hvalid. apply H. now apply parse_payload_valid.
  - intros Hbad. apply parse_payload_empty_or_odd in Hbad.
    destruct (IsInitialized (Make cfg message_hex)); [| reflexivity].
    exfalso. now apply (proj1 H eq_refl).
Qed.

(** X15. An embedder that is not initialised returns every input as it
    is, whatever the frame size, and stays as it was. *)
Theorem ProcessFrame_uninitialized (w : t LimiterT) (input_samples : list Q)
    (frame_size : Z) :
  IsInitialized w = false ->
  PF w input_samples frame_size = Some (input_samples, w).
Proof.
  unfold IsInitialized, ProcessFrame. destruct w as [[impl |]]; cbn [pImpl];
    [| reflexivity].
  intros Hinit. destruct (negb _); [reflexivity |].
  unfold Impl_process_frame. rewrite Hinit. reflexivity.
Qed.

Lemma Impl_make_cases (cfg : Config) (message_hex : string) :
  initialized (Impl_make LimiterT limiter_make cfg message_hex) = false
  \/ built cfg message_hex (Impl_make LimiterT limiter_make cfg message_hex).
Proof.
  unfold built, block_state_ok, Impl_make.
  destruct (Utils.parse_payload message_hex) as [| b bits]; [now left | right].
  cbn. repeat split; try discriminate.
  do 4 eexists. repeat split.
Qed.

Lemma gen_process_frame_fields (gen : SimpleWatermarkGen.t) (frame : list Q) :
  let g' := snd (SimpleWatermarkGen.process_frame M_PI sin frames_per_bit gen frame) in
  SimpleWatermarkGen.n_channels g' = SimpleWatermarkGen.n_channels gen
  /\ SimpleWatermarkGen.sample_rate g' = SimpleWatermarkGen.sample_rate gen
  /\ SimpleWatermarkGen.bitvec g' = SimpleWatermarkGen.bitvec gen
  /\ SimpleWatermarkGen.strength g' = SimpleWatermarkGen.strength gen.
Proof.
  unfold SimpleWatermarkGen.process_frame. destruct (negb _); cbn; auto.
Qed.

Lemma process_block_keeps (cfg : Config) (message_hex : string) (frame : list Q)
    (s : SimpleWatermarkGen.t * LimiterT * FrameBuffer.t Q) :
  block_state_ok cfg message_hex s ->
  block_state_ok cfg message_hex
    (process_block LimiterT limiter_process M_PI sin frames_per_bit frame s).
Proof.
  destruct s as [[gen lim] out_fb]. unfold block_state_ok, process_block.
  intros (H1 & H2 & H3 & H4 & H5).
  pose proof (gen_process_frame_fields gen frame) as Hg. cbv zeta in Hg.
  destruct (SimpleWatermarkGen.process_frame _ _ _ gen frame) as [wm gen'].
  destruct (limiter_process lim wm) as [wm' lim']. cbn [snd] in Hg.
  destruct Hg as (G1 & G2 & G3 & G4). cbn [FrameBuffer.push_samples FrameBuffer.channels].
  repeat split; congruence.
Qed.

Lemma Impl_process_frame_built (cfg : Config) (message_hex : string)
    (impl impl' : Impl LimiterT) (input_samples out : list Q) (frame_size : Z) :
  built cfg message_hex impl ->
  Z.of_nat (List.length input_samples) = CInt.size_mul frame_size (channels cfg) ->
  Impl_process_frame LimiterT limiter_process M_PI sin frames_per_bit impl input_samples frame_size
  = Some (out, impl') ->
  built cfg message_hex impl' /\ List.length out = List.length input_samples.
Proof.
  intros (Hcfg & Hbits & Hne & Hinit & gen & fb & out_fb & lim & Hg & Hfb & Hofb & Hlim & Hch & Hok)
         Hsize.
  unfold Impl_process_frame. rewrite Hinit, Hg, Hfb, Hofb, Hlim. cbn [negb].
  destruct (FrameBuffer.process_frames _ _ _ _) as [[fb' [[gen' lim'] out_fb']] |] eqn:Hloop;
    [| discriminate].
  unfold FrameBuffer.process_frames in Hloop.
  destruct (while_has_frame_invariant (block_state_ok cfg message_hex) _ _
              (process_block_keeps cfg message_hex) _ _ _ _ _ Hok Hloop) as [Hok' Hch'].
  cbn [FrameBuffer.push_samples FrameBuffer.channels] in Hch'.
  assert (Hbuilt : forall ofb, FrameBuffer.channels ofb = channels cfg ->
            built cfg message_hex
              (mkImpl (config impl) (bitvec impl) (Some gen') (Some fb') (Some ofb)
                 (Some lim') true)).
  { intros ofb Hc. unfold built.
    cbn [config bitvec initialized wm_gen frame_buffer output_buffer limiter].
    split; [exact Hcfg |]. split; [exact Hbits |]. split; [exact Hne |].
    split; [reflexivity |].
    exists gen', fb', ofb, lim'. unfold block_state_ok in *.
    repeat split; try congruence; tauto. }
  assert (Hoc : FrameBuffer.channels out_fb' = channels cfg)
    by (unfold block_state_ok in Hok'; tauto).
  destruct (FrameBuffer.has_frame out_fb' frame_size) eqn:Hhas.
  - pose proof (pop_frame_shape out_fb' frame_size Hhas) as Hpop.
    destruct (FrameBuffer.pop_frame out_fb' frame_size) as [frame out_fb''].
    cbn [fst snd] in Hpop. destruct Hpop as (Hlen & Hc).
    intros [= <- <-]. split.
    + apply Hbuilt. congruence.
    + apply Nat2Z.inj. rewrite Hlen, Hoc. now symmetry.
  - intros [= <- <-]. split; [now apply Hbuilt | apply repeat_length].
Qed.

Lemma ProcessFrame_well_formed (cfg : Config) (message_hex : string)
    (w w' : t LimiterT) (input_samples out : list Q) (frame_size : Z) :
  well_formed limiter_make cfg message_hex w ->
  PF w input_samples frame_size = Some (out, w') ->
  well_formed limiter_make cfg message_hex w'
  /\ List.length out = List.length input_samples.
Proof.
  intros (impl & Hp & Hcase). unfold ProcessFrame. rewrite Hp.
  destruct (negb _) eqn:Hsize.
  - intros [= <- <-]. split; [| reflexivity]. now exists impl.
  - apply negb_false_iff, Z.eqb_eq in Hsize.
    destruct Hcase as [[Hinit Himpl] | Hbuilt].
    + unfold Impl_process_frame. rewrite Hinit. cbn [negb].
      intros [= <- <-]. split; [| reflexivity]. exists impl. split; [reflexivity | now left].
    + destruct (Impl_process_frame _ _ _ _ _ impl _ _) as [[o impl'] |] eqn:Hrun;
        [| discriminate].
      intros [= <- <-].
      assert (Hcfg : config impl = cfg) by (destruct Hbuilt; assumption).
      rewrite Hcfg in Hsize.
      destruct (Impl_process_frame_built _ _ _ _ _ _ _ Hbuilt Hsize Hrun) as [Hb Hl].
      split; [| exact Hl]. exists impl'. split; [reflexivity | now right].
Qed.

Lemma Reset_well_formed (cfg : Config) (message_hex : string) (w : t LimiterT) :
  well_formed limiter_make cfg message_hex w ->
  well_formed limiter_make cfg message_hex (Reset w).
Proof.
  intros (impl & Hp & Hcase). unfold Reset. rewrite Hp. cbn [option_map].
  exists (Impl_reset LimiterT impl). split; [reflexivity |].
  destruct Hcase as [[Hinit Himpl] | Hbuilt].
  - left. split; [exact Hinit |]. subst impl.
    unfold Impl_make in *.
    destruct (Utils.parse_payload message_hex); [reflexivity | discriminate Hinit].
  - right.
    destruct Hbuilt as (Hcfg & Hbits & Hne & Hinit & gen & fb & out_fb & lim
                        & Hg & Hfb & Hofb & Hlim & Hch & Hok).
    unfold built, Impl_reset.
    cbn [config bitvec initialized wm_gen frame_buffer output_buffer limiter].
    rewrite Hg, Hfb, Hofb, Hlim. cbn [option_map].
    split; [exact Hcfg |]. split; [exact Hbits |]. split; [exact Hne |].
    split; [exact Hinit |].
    do 4 eexists. unfold block_state_ok in *.
    repeat split; try reflexivity; cbn; tauto.
Qed.

Lemma Reachable_well_formed (cfg : Config) (message_hex : string) (w : t LimiterT) :
  Reach cfg message_hex w -> well_formed limiter_make cfg message_hex w.
Proof.
  induction 1 as [| w w' input out n _ IH Hrun | w _ IH].
  - eexists. split; [reflexivity |].
    destruct (Impl_make_cases cfg message_hex) as [H | H]; [left | right]; auto.
  - now destruct (ProcessFrame_well_formed _ _ _ _ _ _ _ IH Hrun).
  - now apply Reset_well_formed.
Qed.

(** X16. On an embedder built by the constructor and used through
    [ProcessFrame] and [Reset], a call of [ProcessFrame] that returns gives
    as many samples as it was given. *)
Theorem ProcessFrame_output_length (cfg : Config) (message_hex : string)
    (w w' : t LimiterT) (input_samples out : list Q) (frame_size : Z) :
  Reach cfg message_hex w ->
  PF w input_samples frame_size = Some (out, w') ->
  List.length out = List.length input_samples.
Proof.
  intros Hr Hrun. apply Reachable_well_formed in Hr.
  now destruct (ProcessFrame_well_formed _ _ _ _ _ _ _ Hr Hrun).
Qed.


Lemma built_initialized (cfg : Config) (message_hex : string) (w : t LimiterT) :
  well_formed limiter_make cfg message_hex w -> IsInitialized w = true ->
  exists impl, pImpl w = Some impl /\ built cfg message_hex impl.
Proof.
  intros (impl & Hp & Hcase) Hinit. exists impl. split; [exact Hp |].
  destruct Hcase as [[Hfalse _] | Hb]; [| exact Hb].
  unfold IsInitialized in Hinit. rewrite Hp in Hinit. congruence.
Qed.

(** X17. When [Params::frame_size * channels] is zero, as it is for a
    configuration without channels, a well-sized call of [ProcessFrame] on an
    initialised embedder does not return: the block loop pops empty frames
    without end. *)
Theorem ProcessFrame_zero_sized_block (cfg : Config) (message_hex : string)
    (w : t LimiterT) (input_samples : list Q) (frame_size : Z) :
  Reach cfg message_hex w -> IsInitialized w = true ->
  CInt.size_mul Params.frame_size (channels cfg) = 0 ->
  Z.of_nat (List.length input_samples) = CInt.size_mul frame_size (channels cfg) ->
  PF w input_samples frame_size = None.
Proof.
  intros Hr Hinit H0 Hsize. apply Reachable_well_formed in Hr.
  destruct (built_initialized _ _ _ Hr Hinit)
    as (impl & Hp & Hcfg & Hbits & Hne & Hi & gen & fb & out_fb & lim
        & Hg & Hfb & Hofb & Hlim & Hch & Hok).
  unfold ProcessFrame. rewrite Hp, Hcfg.
  apply Z.eqb_eq in Hsize. rewrite Hsize. cbn [negb].
  unfold Impl_process_frame. rewrite Hi, Hg, Hfb, Hofb, Hlim. cbn [negb].
  unfold FrameBuffer.process_frames.
  rewrite while_has_frame_zero; [reflexivity |].
  cbn [FrameBuffer.push_samples FrameBuffer.channels]. now rewrite Hch.
Qed.

Lemma idle_step (cfg : Config) (message_hex : string) (b : Z) (impl : Impl LimiterT)
    (input_samples : list Q) (frame_size : Z) :
  idle cfg message_hex b impl ->
  Z.of_nat (List.length input_samples) = CInt.size_mul frame_size (channels cfg) ->
  b + Z.of_nat (List.length input_samples)
  < CInt.size_mul Params.frame_size (channels cfg) ->
  exists impl',
    PF (mk (Some impl)) input_samples frame_size
    = Some (repeat 0%Q (List.length input_samples), mk (Some impl'))
    /\ idle cfg message_hex (b + Z.of_nat (List.length input_samples)) impl'
    /\ wm_gen impl' = wm_gen impl /\ limiter impl' = limiter impl.
Proof.
  intros [(Hcfg & Hbits & Hne & Hi & gen & fb & out_fb & lim
           & Hg & Hfb & Hofb & Hlim & Hch & Hok)
          (fb0 & Hfb0 & Hb & Hofb0)] Hsize Hless.
  rewrite Hfb in Hfb0. injection Hfb0 as <-.
  rewrite Hofb in Hofb0. injection Hofb0 as ->.
  unfold ProcessFrame. cbn [pImpl]. rewrite Hcfg.
  pose proof Hsize as Hsize'. apply Z.eqb_eq in Hsize'. rewrite Hsize'. cbn [negb].
  unfold Impl_process_frame. rewrite Hi, Hg, Hfb, Hofb, Hlim. cbn [negb].
  set (fb1 := FrameBuffer.push_samples fb input_samples).
  assert (Hsz : FrameBuffer.size fb1 = b + Z.of_nat (List.length input_samples)).
  { unfold fb1, FrameBuffer.size, FrameBuffer.push_samples in *. cbn [FrameBuffer.buffer].
    rewrite length_app. lia. }
  assert (Hno : FrameBuffer.has_frame fb1 Params.frame_size = false).
  { unfold FrameBuffer.has_frame, FrameBuffer.samples_needed. rewrite Hsz.
    unfold fb1. cbn [FrameBuffer.push_samples FrameBuffer.channels]. rewrite Hch.
    apply Z.leb_gt. exact Hless. }
  assert (Hloop : forall s, FrameBuffer.process_frames
                    (process_block LimiterT limiter_process M_PI sin frames_per_bit)
                    Params.frame_size fb1 s = Some (fb1, s)).
  { intros s. unfold FrameBuffer.process_frames.
    destruct (List.length (FrameBuffer.buffer fb1)); cbn [FrameBuffer.while_has_frame];
      now rewrite Hno. }
  rewrite Hloop.
  assert (Hidle : idle cfg message_hex (b + Z.of_nat (List.length input_samples))
                    (mkImpl (config impl) (bitvec impl) (Some gen) (Some fb1)
                       (Some (FrameBuffer.mk [] (channels cfg))) (Some lim) true)).
  { split.
    - unfold built.
      cbn [config bitvec initialized wm_gen frame_buffer output_buffer limiter].
      split; [exact Hcfg |]. split; [exact Hbits |]. split; [exact Hne |].
      split; [reflexivity |].
      exists gen, fb1, (FrameBuffer.mk [] (channels cfg)), lim.
      unfold block_state_ok in *. cbn [FrameBuffer.channels] in *.
      repeat split; auto; tauto.
    - exists fb1. cbn [frame_buffer output_buffer]. auto. }
  destruct (FrameBuffer.has_frame (FrameBuffer.mk [] (channels cfg)) frame_size) eqn:Hhas.
  - unfold FrameBuffer.has_frame, FrameBuffer.samples_needed, FrameBuffer.size in Hhas.
    cbn [FrameBuffer.buffer FrameBuffer.channels List.length] in Hhas.
    apply Z.leb_le in Hhas.
    pose proof (size_mul_range frame_size (channels cfg)) as Hr.
    assert (H0 : CInt.size_mul frame_size (channels cfg) = 0) by (simpl in Hhas; lia).
    assert (Hnil : input_samples = [])
      by (apply length_zero_iff_nil; lia).
    unfold FrameBuffer.pop_frame, FrameBuffer.samples_needed, FrameBuffer.size.
    cbn [FrameBuffer.buffer FrameBuffer.channels List.length]. rewrite H0.
    cbn [Z.of_nat Z.ltb Z.compare Z.to_nat firstn skipn].
    eexists. split; [| split; [exact Hidle | split; reflexivity]].
    rewrite Hnil. reflexivity.
  - eexists. split; [reflexivity | split; [exact Hidle | split; reflexivity]].
Qed.

Lemma idle_run (cfg : Config) (message_hex : string) (calls : list (list Q * Z)) :
  forall b impl,
    idle cfg message_hex b impl ->
    Forall (fun c => Z.of_nat (List.length (fst c))
                     = CInt.size_mul (snd c) (channels cfg)) calls ->
    b + Z.of_nat (List.length (concat (map fst calls)))
    < CInt.size_mul Params.frame_size (channels cfg) ->
    exists impl',
      ProcessFrames limiter_process M_PI sin frames_per_bit (mk (Some impl)) calls
      = Some (map (fun c => repeat 0%Q (List.length (fst c))) calls, mk (Some impl'))
      /\ wm_gen impl' = wm_gen impl /\ limiter impl' = limiter impl.
Proof.
  induction calls as [| [input n] calls IH]; intros b impl Hidle Hall Hless.
  - exists impl. cbn. auto.
  - inversion Hall as [| c cs Hc Hcs]; subst. cbn [fst snd] in Hc.
    cbn [map concat fst] in Hless. rewrite length_app, Nat2Z.inj_add in Hless.
    destruct (idle_step cfg message_hex b impl input n Hidle Hc ltac:(lia))
      as (impl1 & Hrun & Hidle1 & Hg1 & Hl1).
    destruct (IH _ impl1 Hidle1 Hcs ltac:(lia)) as (impl2 & Hrun2 & Hg2 & Hl2).
    exists impl2. cbn [ProcessFrames map fst]. rewrite Hrun, Hrun2.
    repeat split; congruence.
Qed.

(** X18. Start-up latency: as long as the samples given since
    construction do not fill one block of [Params::frame_size * channels]
    samples, every well-sized call returns zeros, as many as the samples it
    was given, and the generator and the limiter stay as constructed. *)
Theorem ProcessFrames_startup_silence (cfg : Config) (message_hex : string)
    (calls : list (list Q * Z)) :
  ~ Utils.parse_payload_fails message_hex ->
  Forall (fun c => Z.of_nat (List.length (fst c))
                   = CInt.size_mul (snd c) (channels cfg)) calls ->
  Z.of_nat (List.length (concat (map fst calls)))
  < CInt.size_mul Params.frame_size (channels cfg) ->
  exists impl',
    ProcessFrames limiter_process M_PI sin frames_per_bit (Make cfg message_hex) calls
    = Some (map (fun c => repeat 0%Q (List.length (fst c))) calls, mk (Some impl'))
    /\ wm_gen impl' = wm_gen (Impl_make LimiterT limiter_make cfg message_hex)
    /\ limiter impl' = limiter (Impl_make LimiterT limiter_make cfg message_hex).
Proof.
  intros Hok Hall Hless.
  apply (idle_run cfg message_hex calls 0); auto.
  destruct (Impl_make_cases cfg message_hex) as [Hfalse | Hb].
  - exfalso. apply Hok. unfold Utils.parse_payload_fails.
    unfold Impl_make in Hfalse.
    destruct (Utils.parse_payload message_hex); [reflexivity | discriminate Hfalse].
  - split; [exact Hb |].
    unfold Impl_make. unfold Utils.parse_payload_fails in Hok.
    destruct (Utils.parse_payload message_hex); [now contradiction Hok |].
    eexists. cbn. repeat split.
Qed.

Lemma Impl_reset_idempotent (impl : Impl LimiterT) :
  Impl_reset LimiterT (Impl_reset LimiterT impl) = Impl_reset LimiterT impl.
Proof.
  unfold Impl_reset. cbn.
  destruct (wm_gen impl), (frame_buffer impl), (output_buffer impl); reflexivity.
Qed.

(** X19. [Reset] twice is [Reset] once, and on an embedder built by the
    constructor and used through [ProcessFrame] and [Reset] it restores the
    constructor's configuration, bits, generator and two empty buffers; the
    limiter is the one field it leaves as it was. *)
Theorem Reset_restores_all_but_limiter (cfg : Config) (message_hex : string)
    (w : t LimiterT) :
  Reset (Reset w) = Reset w
  /\ (Reach cfg message_hex w ->
      exists impl impl_r,
        pImpl w = Some impl /\ pImpl (Reset w) = Some impl_r
        /\ limiter impl_r = limiter impl
        /\ config impl_r = cfg
        /\ bitvec impl_r = Utils.parse_payload message_hex
        /\ initialized impl_r
           = initialized (Impl_make LimiterT limiter_make cfg message_hex)
        /\ wm_gen impl_r = wm_gen (Impl_make LimiterT limiter_make cfg message_hex)
        /\ frame_buffer impl_r
           = frame_buffer (Impl_make LimiterT limiter_make cfg message_hex)
        /\ output_buffer impl_r
           = output_buffer (Impl_make LimiterT limiter_make cfg message_hex)).
Proof.
  split.
  - unfold Reset. destruct w as [[impl |]]; cbn; [| reflexivity].
    now rewrite Impl_reset_idempotent.
  - intros Hr. apply Reachable_well_formed in Hr. destruct Hr as (impl & Hp & Hcase).
    exists impl, (Impl_reset LimiterT impl). unfold Reset. rewrite Hp. cbn [option_map pImpl].
    split; [reflexivity |]. split; [reflexivity |]. split; [reflexivity |].
    destruct Hcase as [[Hinit ->] | Hb].
    + unfold Impl_make in *.
      destruct (Utils.parse_payload message_hex); [| discriminate Hinit].
      cbn. repeat split.
    + destruct Hb as (Hcfg & Hbits & Hne & Hi & gen & fb & out_fb & lim
                      & Hg & Hfb & Hofb & Hlim & Hch & Hoc & Hn & Hsr & Hbv & Hst).
      unfold Impl_reset, Impl_make.
      cbn [config bitvec initialized wm_gen frame_buffer output_buffer].
      rewrite Hg, Hfb, Hofb. cbn [option_map].
      destruct (Utils.parse_payload message_hex) as [| b0 bits] eqn:E;
        [now contradiction Hne |].
      cbn [config bitvec initialized wm_gen frame_buffer output_buffer].
      unfold SimpleWatermarkGen.reset, SimpleWatermarkGen.make, FrameBuffer.clear,
        FrameBuffer.make.
      rewrite Hn, Hsr, Hbv, Hst, Hch, Hoc. repeat split; auto.
Qed.






End WatermarkerExtras.

Lemma ProcessFrame_uninitialized_witness :
  RealtimeWatermarker.IsInitialized RunExamples.unset_watermarker = false
  /\ RealtimeWatermarker.ProcessFrame Limiter.process (355 # 113) (fun x => x) 2
       RunExamples.unset_watermarker [1 # 2]%Q 1
     = Some ([1 # 2]%Q, RunExamples.unset_watermarker).
Proof.
  assert (H : RealtimeWatermarker.IsInitialized RunExamples.unset_watermarker = false)
    by reflexivity.
  split; [exact H |].
  exact (ProcessFrame_uninitialized Limiter.t Limiter.process (355 # 113) (fun x => x) 2
           RunExamples.unset_watermarker [1 # 2]%Q 1 H).
Defined.

Lemma ProcessFrame_output_length_witness :
  WatermarkerRuns.Reachable (fun _ _ => Examples.limiter_44100 (1 # 2)) Limiter.process
    (355 # 113) (fun x => x) 2 (mkConfig 44100 1 (4 # 1000)) "48656c6c6f"
    Examples.watermarker
  /\ RealtimeWatermarker.ProcessFrame Limiter.process (355 # 113) (fun x => x) 2
       Examples.watermarker [1 # 4; 1 # 4]%Q 2
     = Some (fst RunExamples.first_call, snd RunExamples.first_call)
  /\ List.length (fst RunExamples.first_call) = List.length [1 # 4; 1 # 4]%Q.
Proof.
  assert (H1 : WatermarkerRuns.Reachable (fun _ _ => Examples.limiter_44100 (1 # 2))
                 Limiter.process (355 # 113) (fun x => x) 2
                 (mkConfig 44100 1 (4 # 1000)) "48656c6c6f" Examples.watermarker)
    by apply WatermarkerRuns.reach_make.
  assert (H2 : RealtimeWatermarker.ProcessFrame Limiter.process (355 # 113) (fun x => x) 2
                 Examples.watermarker [1 # 4; 1 # 4]%Q 2
               = Some (fst RunExamples.first_call, snd RunExamples.first_call))
    by (vm_compute; reflexivity).
  split; [exact H1 | split; [exact H2 |]].
  exact (ProcessFrame_output_length Limiter.t (fun _ _ => Examples.limiter_44100 (1 # 2))
           Limiter.process (355 # 113) (fun x => x) 2
           (mkConfig 44100 1 (4 # 1000)) "48656c6c6f" Examples.watermarker
           (snd RunExamples.first_call) [1 # 4; 1 # 4]%Q (fst RunExamples.first_call) 2
           H1 H2).
Defined.

Lemma ProcessFrame_zero_sized_block_witness :
  WatermarkerRuns.Reachable (fun _ _ => Examples.limiter_44100 (1 # 2)) Limiter.process
    (355 # 113) (fun x => x) 2 RunExamples.no_channel_config "48"
    RunExamples.no_channel_watermarker
  /\ RealtimeWatermarker.IsInitialized RunExamples.no_channel_watermarker = true
  /\ CInt.size_mul Params.frame_size (channels RunExamples.no_channel_config) = 0
  /\ Z.of_nat (List.length (@nil Q))
     = CInt.size_mul 1 (channels RunExamples.no_channel_config)
  /\ RealtimeWatermarker.ProcessFrame Limiter.process (355 # 113) (fun x => x) 2
       RunExamples.no_channel_watermarker [] 1
     = None.
Proof.
  assert (H1 : WatermarkerRuns.Reachable (fun _ _ => Examples.limiter_44100 (1 # 2))
                 Limiter.process (355 # 113) (fun x => x) 2
                 RunExamples.no_channel_config "48" RunExamples.no_channel_watermarker)
    by apply WatermarkerRuns.reach_make.
  assert (H2 : RealtimeWatermarker.IsInitialized RunExamples.no_channel_watermarker = true)
    by reflexivity.
  assert (H3 : CInt.size_mul Params.frame_size (channels RunExamples.no_channel_config) = 0)
    by reflexivity.
  assert (H4 : Z.of_nat (List.length (@nil Q))
               = CInt.size_mul 1 (channels RunExamples.no_channel_config))
    by reflexivity.
  split; [exact H1 | split; [exact H2 | split; [exact H3 | split; [exact H4 |]]]].
  exact (ProcessFrame_zero_sized_block Limiter.t
           (fun _ _ => Examples.limiter_44100 (1 # 2)) Limiter.process (355 # 113)
           (fun x => x) 2 RunExamples.no_channel_config "48"
           RunExamples.no_channel_watermarker [] 1 H1 H2 H3 H4).
Defined.

Lemma ProcessFrames_startup_silence_witness :
  ~ Utils.parse_payload_fails "48656c6c6f"
  /\ Forall (fun c => Z.of_nat (List.length (fst c))
                      = CInt.size_mul (snd c) (channels (mkConfig 44100 1 (4 # 1000))))
       RunExamples.short_calls
  /\ Z.of_nat (List.length (concat (map fst RunExamples.short_calls)))
     < CInt.size_mul Params.frame_size (channels (mkConfig 44100 1 (4 # 1000)))
  /\ exists impl',
       WatermarkerRuns.ProcessFrames Limiter.process (355 # 113) (fun x => x) 2
         (RealtimeWatermarker.make Limiter.t (fun _ _ => Examples.limiter_44100 (1 # 2))
            (mkConfig 44100 1 (4 # 1000)) "48656c6c6f")
         RunExamples.short_calls
       = Some (map (fun c => repeat 0%Q (List.length (fst c))) RunExamples.short_calls,
               RealtimeWatermarker.mk (Some impl'))
       /\ RealtimeWatermarker.wm_gen impl'
          = RealtimeWatermarker.wm_gen
              (RealtimeWatermarker.Impl_make Limiter.t
                 (fun _ _ => Examples.limiter_44100 (1 # 2))
                 (mkConfig 44100 1 (4 # 1000)) "48656c6c6f")
       /\ RealtimeWatermarker.limiter impl'
          = RealtimeWatermarker.limiter
              (RealtimeWatermarker.Impl_make Limiter.t
                 (fun _ _ => Examples.limiter_44100 (1 # 2))
                 (mkConfig 44100 1 (4 # 1000)) "48656c6c6f").
Proof.
  assert (H1 : ~ Utils.parse_payload_fails "48656c6c6f")
    by (unfold Utils.parse_payload_fails; vm_compute; discriminate).
  assert (H2 : Forall (fun c => Z.of_nat (List.length (fst c))
                               = CInt.size_mul (snd c)
                                   (channels (mkConfig 44100 1 (4 # 1000))))
                 RunExamples.short_calls)
    by (repeat constructor).
  assert (H3 : Z.of_nat (List.length (concat (map fst RunExamples.short_calls)))
               < CInt.size_mul Params.frame_size (channels (mkConfig 44100 1 (4 # 1000))))
    by reflexivity.
  split; [exact H1 | split; [exact H2 | split; [exact H3 |]]].
  exact (ProcessFrames_startup_silence Limiter.t
           (fun _ _ => Examples.limiter_44100 (1 # 2)) Limiter.process (355 # 113)
           (fun x => x) 2 (mkConfig 44100 1 (4 # 1000)) "48656c6c6f"
           RunExamples.short_calls H1 H2 H3).
Defined.


(* ------------------------------------------------------------------ *)
(** ** The detector through its interface *)

Section DetectorExtras.
Import Num RealtimeDetector Calls DetectorRuns.

Variable run_fft_abs : list Q -> list (list Q).

Local Notation "'Reach'" := (Reachable run_fft_abs).

Lemma set_score_lengths (scores : list (list Q)) (h i : nat) (x : Q) :
  map (@List.length Q) (set_score scores h i x) = map (@List.length Q) scores.
Proof.
  revert h; induction scores as [| row rest IH]; intros [| h]; cbn; auto.
  - now rewrite set_length.
  - now rewrite IH.
Qed.

Lemma score_set_score_other (scores : list (list Q)) (h h' i i' : nat) (x : Q) :
  i' <> i -> score (set_score scores h i x) h' i' = score scores h' i'.
Proof.
  intros Hne. unfold score.
  revert h h'; induction scores as [| row rest IH]; intros [| h] [| h']; cbn; auto.
  - now apply get_set_other.
  - apply (IH h h').
Qed.

Lemma analysis_keeps_other_slots (d d' : Impl) (frame : list Q) :
  analyze_frame_for_watermark run_fft_abs d frame = Some d' ->
  map (@List.length Q) (detection_scores d') = map (@List.length Q) (detection_scores d)
  /\ forall h i, i <> slot d ->
       score (detection_scores d') h i = score (detection_scores d) h i.
Proof.
  unfold analyze_frame_for_watermark, slot.
  destruct (run_fft_abs frame) as [| [| b bins] rows]; try (intros [= <-]; auto).
  repeat match goal with
         | |- context [if ?c then _ else _] => destruct c
         end; intros [= <-]; auto;
    cbn [with_scores detection_scores];
    (split; [now rewrite !set_score_lengths
            | intros h i Hi; now rewrite !score_set_score_other by exact Hi]).
Qed.

(** X20. The analysis of a block writes the window at one position only,
    [frames_processed mod detection_window_frames], which lies inside the
    window: every other score of both rows, and the length of the rows, stay
    as they were. *)
Theorem analysis_writes_one_slot (d d' : Impl) (frame : list Q) :
  0 < detection_window_frames d ->
  0 <= frames_processed d ->
  analyze_frame_for_watermark run_fft_abs d frame = Some d' ->
  Z.of_nat (slot d) < detection_window_frames d
  /\ map (@List.length Q) (detection_scores d')
     = map (@List.length Q) (detection_scores d)
  /\ forall h i, i <> slot d ->
       score (detection_scores d') h i = score (detection_scores d) h i.
Proof.
  intros Hw Hfp Ha. split; [| now apply (analysis_keeps_other_slots d d' frame)].
  unfold slot.
  pose proof (Z.mod_pos_bound (frames_processed d) (detection_window_frames d) Hw).
  rewrite Z2Nat.id; lia.
Qed.

Lemma analyze_shaped (cfg : Config) (d d' : Impl) (frame : list Q) :
  shaped cfg d -> analyze_frame_for_watermark run_fft_abs d frame = Some d' ->
  shaped cfg d' /\ frames_processed d' = frames_processed d.
Proof.
  intros Hs Ha.
  destruct (analysis_keeps_other_slots d d' frame Ha) as [Hlen _].
  revert Ha. unfold analyze_frame_for_watermark.
  destruct Hs as (H1 & H2 & H3 & H4 & H5 & H6 & H7).
  assert (G : forall sc, map (@List.length Q) sc = [100; 100]%nat ->
            shaped cfg (with_scores d sc)
            /\ frames_processed (with_scores d sc) = frames_processed d).
  { intros sc Hsc. unfold shaped, with_scores. cbn. repeat split; auto. }
  assert (G0 : shaped cfg d /\ frames_processed d = frames_processed d)
    by (unfold shaped; repeat split; auto).
  destruct (run_fft_abs frame) as [| [| b bins] rows]; try (intros [= <-]; exact G0).
  repeat match goal with
         | |- context [if ?c then _ else _] => destruct c
         end; intros [= <-]; try exact G0;
    apply G; rewrite <- H7; exact Hlen.
Qed.

Lemma process_block_shaped (cfg : Config) (frame : list Q) (s : option Impl) :
  match s with Some d => shaped cfg d | None => True end ->
  match process_block run_fft_abs frame s with
  | Some d => shaped cfg d
  | None => True
  end.
Proof.
  destruct s as [d |]; [| auto]. intros Hs. cbn [process_block].
  destruct (analyze_frame_for_watermark run_fft_abs d frame) as [d' |] eqn:Ha; [| exact I].
  destruct (analyze_shaped cfg d d' frame Hs Ha) as [(H1 & H2 & H3 & H4 & H5 & H6 & H7) _].
  unfold shaped. cbn. repeat split; auto.
Qed.

Lemma Impl_process_frame_shaped (cfg : Config) (d d' : Impl) (input_samples : list Q)
    (frame_size : Z) :
  shaped cfg d ->
  Impl_process_frame run_fft_abs d input_samples frame_size = Some d' ->
  shaped cfg d'.
Proof.
  intros Hs. unfold Impl_process_frame.
  destruct (_ || _); [intros [= <-]; exact Hs |].
  destruct (FrameBuffer.process_frames _ _ _ _) as [[fb' [d1 |]] |] eqn:Hloop;
    try discriminate.
  intros [= <-]. unfold FrameBuffer.process_frames in Hloop.
  destruct (while_has_frame_invariant
              (fun s => match s with Some d => shaped cfg d | None => True end)
              _ _ (process_block_shaped cfg) _ _ _ (Some d) _ Hs Hloop)
    as [(H1 & H2 & H3 & H4 & H5 & H6 & H7) Hch].
  cbn [FrameBuffer.push_samples FrameBuffer.channels] in Hch.
  destruct Hs as (_ & _ & _ & _ & _ & Hc & _).
  unfold shaped. cbn. repeat split; auto. congruence.
Qed.

Lemma Impl_make_shaped (cfg : Config) : shaped cfg (Impl_make cfg).
Proof. unfold shaped, Impl_make. cbn. repeat split. Qed.

Lemma Impl_reset_shaped (cfg : Config) (d : Impl) :
  shaped cfg d -> Impl_reset d = Impl_make cfg.
Proof.
  intros (H1 & H2 & H3 & H4 & H5 & H6 & H7).
  destruct d as [c fb sc bits fp w ini thr]. cbn in *. subst.
  unfold Impl_reset, Impl_make, FrameBuffer.clear, FrameBuffer.make. cbn.
  rewrite H6.
  destruct sc as [| r0 [| r1 [| r2 sc]]]; try discriminate H7.
  cbn in H7. injection H7 as E0 E1. cbn. rewrite E0, E1. reflexivity.
Qed.

Lemma Reachable_shaped (cfg : Config) (det : t) :
  Reach cfg det -> exists d, pImpl det = Some d /\ shaped cfg d.
Proof.
  induction 1 as [| det det' input n _ (d & Hp & Hs) Hrun | det _ (d & Hp & Hs)].
  - eexists. split; [reflexivity | apply Impl_make_shaped].
  - unfold ProcessFrame in Hrun. rewrite Hp in Hrun.
    destruct (Impl_process_frame run_fft_abs d input n) as [d' |] eqn:Hd; [| discriminate].
    injection Hrun as <-. exists d'. split; [reflexivity |].
    now apply (Impl_process_frame_shaped cfg d d' input n).
  - unfold Reset. rewrite Hp. cbn. eexists. split; [reflexivity |].
    rewrite (Impl_reset_shaped cfg d Hs). apply Impl_make_shaped.
Qed.

(** X21. On a detector built by the constructor and used through
    [ProcessFrame] and [Reset], [Reset] gives back the detector the
    constructor builds. *)
Theorem Reset_gives_fresh_detector (cfg : Config) (det : t) :
  Reach cfg det -> Reset det = make cfg.
Proof.
  intros Hr. destruct (Reachable_shaped cfg det Hr) as (d & Hp & Hs).
  unfold Reset, make. rewrite Hp. cbn. now rewrite (Impl_reset_shaped cfg d Hs).
Qed.

Lemma zero_rows_score (h i : nat) :
  (score [repeat 0%Q 100; repeat 0%Q 100] h i == 0)%Q.
Proof.
  unfold score, get. destruct h as [| [| h]]; cbn [nth].
  - now rewrite nth_repeat.
  - now rewrite nth_repeat.
  - destruct h, i; reflexivity.
Qed.

Lemma sum_scores_zero (scores : list (list Q)) (h : nat) (n : Z) :
  (forall i, score scores h i == 0)%Q -> (sum_scores scores h n == 0)%Q.
Proof.
  intros Hz. unfold sum_scores.
  apply (fold_left_preserves (fun acc => acc == 0)%Q); [| reflexivity].
  intros acc i Hacc. rewrite Hacc, Hz. reflexivity.
Qed.

Lemma get_detection_result_no_evidence (d : Impl) (detected_message : string) (confidence : Q) :
  (forall h i, score (detection_scores d) h i == 0)%Q ->
  (0 <= confidence_threshold d)%Q ->
  fst (get_detection_result d detected_message confidence) = (false, detected_message).
Proof.
  intros Hz Hthr. unfold get_detection_result.
  destruct (_ <? _); [reflexivity |].
  replace (Qltb (confidence_threshold d) _) with false; [reflexivity |].
  symmetry. apply Qltb_ge. apply Qle_not_lt.
  pose proof (sum_scores_zero (detection_scores d) 0 (detection_window_frames d) (Hz 0%nat))
    as E0.
  pose proof (sum_scores_zero (detection_scores d) 1 (detection_window_frames d) (Hz 1%nat))
    as E1.
  cbv zeta. rewrite E0, E1.
  setoid_replace ((0 / inject_Z (detection_window_frames d)
                   + 0 / inject_Z (detection_window_frames d))
                  / inject_Z (detection_window_frames d))%Q with 0%Q
    by (unfold Qdiv; ring).
  exact Hthr.
Qed.

Lemma ProcessFrames_reachable (cfg : Config) (calls : list (list Q * Z)) :
  forall det det',
    Reach cfg det -> ProcessFrames run_fft_abs det calls = Some det' -> Reach cfg det'.
Proof.
  induction calls as [| [input n] calls IH]; intros det det' Hr; cbn [ProcessFrames].
  - intros [= <-]. exact Hr.
  - destruct (ProcessFrame run_fft_abs det input n) as [det1 |] eqn:E; [| discriminate].
    apply IH. now apply (reach_process run_fft_abs cfg det det1 input n).
Qed.

(** X22. A window without evidence reports nothing: on a detector built by
    the constructor and used through [ProcessFrame] and [Reset], when every
    score of the window is zero [GetDetectionResult] returns [false] and
    leaves the message as it was, however many blocks have been processed. *)
Theorem no_evidence_no_detection (cfg : Config) (det : t) (d : Impl)
    (detected_message : string) (confidence : Q) :
  Reach cfg det ->
  pImpl det = Some d ->
  (forall h i, score (detection_scores d) h i == 0)%Q ->
  fst (GetDetectionResult det detected_message confidence) = (false, detected_message).
Proof.
  intros Hr Hp Hz. destruct (Reachable_shaped cfg det Hr) as (d0 & Hp0 & Hs).
  rewrite Hp in Hp0. injection Hp0 as <-.
  unfold GetDetectionResult. rewrite Hp.
  apply get_detection_result_no_evidence; [exact Hz |].
  destruct Hs as (_ & _ & _ & _ & -> & _). discriminate.
Qed.





End DetectorExtras.

Lemma analysis_writes_one_slot_witness :
  0 < RealtimeDetector.detection_window_frames
        (RealtimeDetector.Impl_make Examples.detector_config)
  /\ 0 <= RealtimeDetector.frames_processed
            (RealtimeDetector.Impl_make Examples.detector_config)
  /\ RealtimeDetector.analyze_frame_for_watermark Examples.analyser_1500
       (RealtimeDetector.Impl_make Examples.detector_config) Examples.block
     = Some RunExamples.analysed_once
  /\ Z.of_nat (DetectorRuns.slot (RealtimeDetector.Impl_make Examples.detector_config))
     < RealtimeDetector.detection_window_frames
         (RealtimeDetector.Impl_make Examples.detector_config)
  /\ map (@List.length Q) (RealtimeDetector.detection_scores RunExamples.analysed_once)
     = map (@List.length Q)
         (RealtimeDetector.detection_scores
            (RealtimeDetector.Impl_make Examples.detector_config))
  /\ forall h i,
       i <> DetectorRuns.slot (RealtimeDetector.Impl_make Examples.detector_config) ->
       RealtimeDetector.score
         (RealtimeDetector.detection_scores RunExamples.analysed_once) h i
       = RealtimeDetector.score
           (RealtimeDetector.detection_scores
              (RealtimeDetector.Impl_make Examples.detector_config)) h i.
Proof.
  assert (H1 : 0 < RealtimeDetector.detection_window_frames
                     (RealtimeDetector.Impl_make Examples.detector_config))
    by reflexivity.
  assert (H2 : 0 <= RealtimeDetector.frames_processed
                      (RealtimeDetector.Impl_make Examples.detector_config))
    by (cbn; lia).
  assert (H3 : RealtimeDetector.analyze_frame_for_watermark Examples.analyser_1500
                 (RealtimeDetector.Impl_make Examples.detector_config) Examples.block
               = Some RunExamples.analysed_once)
    by (vm_compute; reflexivity).
  split; [exact H1 | split; [exact H2 | split; [exact H3 |]]].
  exact (analysis_writes_one_slot Examples.analyser_1500
           (RealtimeDetector.Impl_make Examples.detector_config)
           RunExamples.analysed_once Examples.block H1 H2 H3).
Defined.

Lemma Reset_gives_fresh_detector_witness :
  DetectorRuns.Reachable Examples.analyser_1500 Examples.detector_config
    RunExamples.detector_once
  /\ RealtimeDetector.Reset RunExamples.detector_once
     = RealtimeDetector.make Examples.detector_config.
Proof.
  assert (H : DetectorRuns.Reachable Examples.analyser_1500 Examples.detector_config
                RunExamples.detector_once).
  { apply (DetectorRuns.reach_process Examples.analyser_1500 Examples.detector_config
             (RealtimeDetector.make Examples.detector_config) RunExamples.detector_once
             Examples.block 1024).
    - apply DetectorRuns.reach_make.
    - vm_compute. reflexivity. }
  split; [exact H |].
  exact (Reset_gives_fresh_detector Examples.analyser_1500 Examples.detector_config
           RunExamples.detector_once H).
Defined.

Lemma no_evidence_no_detection_witness :
  DetectorRuns.Reachable RunExamples.silent_analyser Examples.detector_config
    RunExamples.detector_after_silence
  /\ RealtimeDetector.pImpl RunExamples.detector_after_silence
     = Some RunExamples.detector_quiet
  /\ (forall h i,
        RealtimeDetector.score
          (RealtimeDetector.detection_scores RunExamples.detector_quiet) h i == 0)%Q
  /\ fst (RealtimeDetector.GetDetectionResult RunExamples.detector_after_silence
            "none" 1%Q)
     = (false, "none"%string).
Proof.
  assert (H1 : DetectorRuns.Reachable RunExamples.silent_analyser Examples.detector_config
                 RunExamples.detector_after_silence).
  { apply (ProcessFrames_reachable RunExamples.silent_analyser Examples.detector_config
             RunExamples.silent_calls (RealtimeDetector.make Examples.detector_config)).
    - apply DetectorRuns.reach_make.
    - vm_compute. reflexivity. }
  assert (H2 : RealtimeDetector.pImpl RunExamples.detector_after_silence
               = Some RunExamples.detector_quiet)
    by (vm_compute; reflexivity).
  assert (H3 : forall h i,
             (RealtimeDetector.score
                (RealtimeDetector.detection_scores RunExamples.detector_quiet) h i == 0)%Q)
    by exact zero_rows_score.
  split; [exact H1 | split; [exact H2 | split; [exact H3 |]]].
  exact (no_evidence_no_detection RunExamples.silent_analyser Examples.detector_config
           RunExamples.detector_after_silence RunExamples.detector_quiet "none" 1%Q
           H1 H2 H3).
Defined.

